(** * The ClickHouse batching log hook of [app/main.go]

    A shallow embedding of the hook ([ClickHouseHook], [NewClickHouseHook],
    [Fire], [flush]) and of the demo driver ([main]), together with the
    properties the specification states about them.

    The database is an external collaborator.  It is modelled as a
    deterministic oracle: given the history of calls made so far and the
    call being made, it answers with [None] (the call succeeded) or
    [Some err] (the call returned the error [err]).  Every call the Go code
    makes on [database/sql] is recorded, with its answer, in a trace. *)

From Stdlib Require Import ZArith List String Bool Lia Arith.
Import ListNotations.
Open Scope string_scope.
Open Scope Z_scope.
Open Scope list_scope.

(** ** Data model *)

(** [logrus.Level] and its [String] method. *)
Module logrus.

Inductive Level : Type :=
| PanicLevel | FatalLevel | ErrorLevel | WarnLevel
| InfoLevel | DebugLevel | TraceLevel.

Definition Level_String (l : Level) : string :=
  match l with
  | PanicLevel => "panic"
  | FatalLevel => "fatal"
  | ErrorLevel => "error"
  | WarnLevel => "warning"
  | InfoLevel => "info"
  | DebugLevel => "debug"
  | TraceLevel => "trace"
  end.

End logrus.

(** The fields of [logrus.Entry] the program reads or sets.  [Time] is an
    instant, counted in seconds; [Data] holds the structured fields
    attached with [WithFields]. *)
Record Entry : Type := mkEntry {
  Time : Z;
  Level : logrus.Level;
  Message : string;
  Data : list (string * Z)
}.

(** A Go [error] value: either a [*clickhouse.Exception] or any other
    error, kept by its text. *)
Inductive error : Type :=
| Exception (Code : Z) (Msg StackTrace : string)
| OtherError (text : string).

(** An argument handed to a prepared statement. *)
Inductive Arg : Type :=
| ArgTime (t : Z)
| ArgText (s : string).

(** The calls of [database/sql] that reach the store.  [TxRollback] is
    part of that interface; whether the hook ever issues it is one of the
    properties studied below. *)
Inductive Call : Type :=
| SqlOpen (driverName dataSourceName : string)
| DbPing
| DbBegin
| TxPrepare (query : string)
| StmtExec (args : list Arg)
| TxCommit
| TxRollback
| StmtClose
| DbClose.

(** One call with the answer it got; traces are in chronological order. *)
Abbreviation Event := (Call * option error)%type (only parsing).
Definition Trace : Type := list Event.

(** The store: the answer to a call, given everything that happened
    before it. *)
Definition Store : Type := Trace -> Call -> option error.

(** [*sql.DB]: the handle [sql.Open] returns. *)
Record DB : Type := mkDB {
  db_driver : string;
  db_dsn : string
}.

Record ClickHouseHook : Type := mkHook {
  db : DB;
  entries : list Entry;
  batchSize : Z
}.

Definition set_entries (hook : ClickHouseHook) (es : list Entry) : ClickHouseHook :=
  {| db := db hook; entries := es; batchSize := batchSize hook |}.

(** How a function that may end the process comes back. [log.Fatal] and
    [log.Fatalf] print a diagnostic and call [os.Exit(1)]: the process
    stops there and no deferred call runs. *)
Inductive Fatal : Type :=
| FatalException (Code : Z) (Msg StackTrace : string)
| FatalErr (err : error)
| Fatalf (prefix : string) (err : error).

Inductive Outcome (A : Type) : Type :=
| Returned (a : A)
| Exited (status : Z) (diagnostic : Fatal)
| Panicked.
Arguments Returned {A} a.
Arguments Exited {A} status diagnostic.
Arguments Panicked {A}.

(** Go's [len] on a slice. *)
Definition len {A : Type} (l : list A) : Z := Z.of_nat (List.length l).

(** ** A small state monad over the trace *)

Definition M (A : Type) : Type := Trace -> A * Trace.

Definition ret {A : Type} (a : A) : M A := fun h => (a, h).

Definition bind {A B : Type} (m : M A) (k : A -> M B) : M B :=
  fun h => let (a, h') := m h in k a h'.

Declare Scope io_scope.
Delimit Scope io_scope with io.
Notation "x <- c ;; k" := (bind c (fun x => k))
  (at level 100, c at next level, right associativity) : io_scope.
Open Scope io_scope.

(** ** The program *)

Definition insertQuery : string :=
  "INSERT INTO tiered_logs (event_time, level, message) VALUES (?, ?, ?)".

(** The arguments of [stmt.Exec(entry.Time, entry.Level.String(), entry.Message)]. *)
Definition row (entry : Entry) : list Arg :=
  [ArgTime (Time entry); ArgText (logrus.Level_String (Level entry)); ArgText (Message entry)].

Section Program.

Variable store : Store.

(** Make one call on the store and record it. *)
Definition call (c : Call) : M (option error) :=
  fun h => let r := store h c in (r, h ++ [(c, r)]).

(** [NewClickHouseHook]: [sql.Open], then [Ping]; a failed [Ping] ends
    the process through [log.Fatalf] / [log.Fatal]. *)
Definition NewClickHouseHook (dsn : string) (size : Z)
  : M (Outcome (option ClickHouseHook * option error)) :=
  r <- call (SqlOpen "clickhouse" dsn) ;;
  match r with
  | Some err => ret (Returned (None, Some err))
  | None =>
      r <- call DbPing ;;
      match r with
      | Some (Exception code msg stack) =>
          ret (Exited 1 (FatalException code msg stack))
      | Some err => ret (Exited 1 (FatalErr err))
      | None =>
          ret (Returned
                 (Some {| db := mkDB "clickhouse" dsn; entries := []; batchSize := size |},
                  None))
      end
  end.

(** The loop of [flush]: one [stmt.Exec] per buffered entry, in slice
    order, stopping at the first error. *)
Fixpoint exec_entries (es : list Entry) : M (option error) :=
  match es with
  | [] => ret None
  | entry :: rest =>
      r <- call (StmtExec (row entry)) ;;
      match r with
      | Some err => ret (Some err)
      | None => exec_entries rest
      end
  end.

(** The part of [flush] that runs once [defer stmt.Close()] is
    registered. *)
Definition flush_prepared (hook : ClickHouseHook) : M (option error * ClickHouseHook) :=
  r <- exec_entries (entries hook) ;;
  match r with
  | Some err => ret (Some err, hook)
  | None =>
      r <- call TxCommit ;;
      match r with
      | Some err => ret (Some err, hook)
      | None => ret (None, set_entries hook [])
      end
  end.

(** [flush]. The hook is mutated through a pointer in Go; here the
    updated hook is returned next to the error. The deferred
    [stmt.Close()] runs on every return that follows a successful
    [Prepare]; its own result is dropped. *)
Definition flush (hook : ClickHouseHook) : M (option error * ClickHouseHook) :=
  r <- call DbBegin ;;
  match r with
  | Some err => ret (Some err, hook)
  | None =>
      r <- call (TxPrepare insertQuery) ;;
      match r with
      | Some err => ret (Some err, hook)
      | None =>
          res <- flush_prepared hook ;;
          _ <- call StmtClose ;;
          ret res
      end
  end.

(** The state of the hook right after line 38 of [Fire]: the entry has
    been appended and the threshold has not been looked at yet. *)
Definition appended (hook : ClickHouseHook) (entry : Entry) : ClickHouseHook :=
  set_entries hook (entries hook ++ [entry]).

(** [Fire]. *)
Definition Fire (hook : ClickHouseHook) (entry : Entry)
  : M (option error * ClickHouseHook) :=
  let hook := appended hook entry in
  if len (entries hook) >=? batchSize hook then
    res <- flush hook ;;
    match fst res with
    | Some err => ret (Some err, snd res)
    | None => ret (None, snd res)
    end
  else ret (None, hook).

(** A caller that appends the records of [es] one after the other,
    keeping what each [Fire] returned. *)
Fixpoint Fire_all (hook : ClickHouseHook) (es : list Entry)
  : M (list (option error) * ClickHouseHook) :=
  match es with
  | [] => ret ([], hook)
  | entry :: rest =>
      res <- Fire hook entry ;;
      res' <- Fire_all (snd res) rest ;;
      ret (fst res :: fst res', snd res')
  end.

(** [main]. [clock i] is the time at which the logger stamps the entry
    of iteration [i].  The logger calls [Fire] on the registered hook
    for every entry ([Levels] returns all levels) and reports an error
    of [Fire] on standard error without passing it on, so the loop
    goes on after a failed [Fire].  Console output is not modelled,
    the diagnostics of [log.Fatal] apart. *)
Definition dsn : string :=
  "tcp://localhost:9000?database=default&username=default&password=&debug=true".

Definition info_entry (clock : nat -> Z) (i : nat) : Entry :=
  {| Time := clock i; Level := logrus.InfoLevel;
     Message := "This is an info log entry";
     Data := [("iteration", Z.of_nat i)] |}.

Fixpoint log_loop (clock : nat -> Z) (iterations : list nat) (hook : ClickHouseHook)
  : M ClickHouseHook :=
  match iterations with
  | [] => ret hook
  | i :: rest =>
      res <- Fire hook (info_entry clock i) ;;
      log_loop clock rest (snd res)
  end.

Definition main (clock : nat -> Z) : M (Outcome unit) :=
  r <- NewClickHouseHook dsn 5 ;;
  match r with
  | Exited status d => ret (Exited status d)
  | Panicked => ret Panicked
  | Returned (_, Some err) =>
      ret (Exited 1 (Fatalf "failed to connect to ClickHouse: " err))
  | Returned (None, None) => ret Panicked
  | Returned (Some hook, None) =>
      (* defer hook.db.Close() *)
      hook <- log_loop clock (seq 0 10) hook ;;
      res <- flush hook ;;
      match fst res with
      | Some err =>
          (* log.Fatalf: os.Exit(1), the deferred Close does not run *)
          ret (Exited 1 (Fatalf "failed to flush logs to ClickHouse: " err))
      | None =>
          _ <- call DbClose ;;
          ret (Returned tt)
      end
  end.

End Program.

(** ** Observing a run *)

(** What a computation returns, and the calls it adds to the trace, when
    started after the history [h]. *)
Definition result {A : Type} (m : M A) (h : Trace) : A := fst (m h).

Definition issued {A : Type} (m : M A) (h : Trace) : Trace :=
  skipn (List.length h) (snd (m h)).

(** A call that the store accepted. *)
Definition ok (c : Call) : Event := (c, None).

(** The accepted inserts of a list of entries, in list order. *)
Definition execs (es : list Entry) : Trace :=
  map (fun entry => ok (StmtExec (row entry))) es.

(** The calls of one complete transaction over [es], up to the commit. *)
Definition transaction (es : list Entry) : list Call :=
  DbBegin :: TxPrepare insertQuery :: map (fun entry => StmtExec (row entry)) es
  ++ [TxCommit].

Definition is_exec (c : Call) : bool :=
  match c with StmtExec _ => true | _ => false end.

Definition is_begin (c : Call) : bool :=
  match c with DbBegin => true | _ => false end.

(** The number of row inserts in a trace, and the number of times [flush]
    was entered (every [flush] starts with exactly one [Begin], and nothing
    else issues one). *)
Definition inserts (t : Trace) : nat :=
  List.length (filter (fun ev => is_exec (fst ev)) t).

Definition flushes (t : Trace) : nat :=
  List.length (filter (fun ev => is_begin (fst ev)) t).

(** What the store has received: the rows of every committed transaction,
    in commit order.  [pending] holds the rows inserted in the transaction
    that is open, if one is. *)
Record Received : Type := mkReceived {
  committed : list (list (list Arg));
  pending : option (list (list Arg))
}.

Definition receive (s : Received) (ev : Event) : Received :=
  match ev with
  | (DbBegin, None) => {| committed := committed s; pending := Some [] |}
  | (StmtExec args, None) =>
      match pending s with
      | Some rows => {| committed := committed s; pending := Some (rows ++ [args]) |}
      | None => s
      end
  | (TxCommit, None) =>
      match pending s with
      | Some rows => {| committed := committed s ++ [rows]; pending := None |}
      | None => s
      end
  | (TxRollback, None) => {| committed := committed s; pending := None |}
  | _ => s
  end.

Definition batches (t : Trace) : list (list (list Arg)) :=
  committed (fold_left receive t {| committed := []; pending := None |}).

(** The outcomes of one [flush] over the buffer of [hook], with the calls
    each one issues: the transaction is cut at the first call the store
    refuses; [stmt.Close] follows whenever [Prepare] was accepted, and its
    answer [c] does not matter. *)
Inductive flush_run (hook : ClickHouseHook)
  : option error -> ClickHouseHook -> Trace -> Prop :=
| run_begin_failed err :
    flush_run hook (Some err) hook [(DbBegin, Some err)]
| run_prepare_failed err :
    flush_run hook (Some err) hook [ok DbBegin; (TxPrepare insertQuery, Some err)]
| run_exec_failed err done entry rest c :
    entries hook = done ++ entry :: rest ->
    flush_run hook (Some err) hook
      (ok DbBegin :: ok (TxPrepare insertQuery) :: execs done
       ++ [(StmtExec (row entry), Some err); (StmtClose, c)])
| run_commit_failed err c :
    flush_run hook (Some err) hook
      (ok DbBegin :: ok (TxPrepare insertQuery) :: execs (entries hook)
       ++ [(TxCommit, Some err); (StmtClose, c)])
| run_committed c :
    flush_run hook None (set_entries hook [])
      (ok DbBegin :: ok (TxPrepare insertQuery) :: execs (entries hook)
       ++ [ok TxCommit; (StmtClose, c)]).

(** Stores that accept, respectively refuse, everything of one kind. *)
Definition accepts_all (store : Store) : Prop := forall h c, store h c = None.

(** The smallest number of batches of [B] records that hold [N] records. *)
Definition ceil_div (N B : Z) : Z := (N + B - 1) / B.

(** The buffer and the batches a run of appends goes through when every
    triggered flush succeeds: the bookkeeping of [Fire] without the store. *)
Fixpoint batching (B : Z) (buf es : list Entry) : list (list Entry) * list Entry :=
  match es with
  | [] => ([], buf)
  | entry :: rest =>
      let buf' := buf ++ [entry] in
      if len buf' >=? B
      then (buf' :: fst (batching B [] rest), snd (batching B [] rest))
      else batching B buf' rest
  end.

(** The trace of a [flush] that went through, [c] being the answer to the
    deferred [stmt.Close]. *)
Definition flushed (es : list Entry) (c : option error) : Trace :=
  ok DbBegin :: ok (TxPrepare insertQuery) :: execs es ++ [ok TxCommit; (StmtClose, c)].

(** ** Stores and records used in the examples *)

Definition accepts_everything : Store := fun _ _ => None.

Definition refuses_begin : Store :=
  fun _ c => match c with
             | DbBegin => Some (OtherError "driver: bad connection")
             | _ => None
             end.

Definition refuses_commit : Store :=
  fun _ c => match c with
             | TxCommit => Some (OtherError "commit failed")
             | _ => None
             end.

(** Refuses the second insert it is asked for, and nothing else. *)
Definition refuses_second_insert : Store :=
  fun h c => match c with
             | StmtExec _ =>
                 if Nat.eqb (inserts h) 1 then Some (OtherError "insert failed") else None
             | _ => None
             end.

(** Refuses the first [Begin] it is asked for, and nothing else. *)
Definition refuses_first_begin : Store :=
  fun h c => match c with
             | DbBegin =>
                 if Nat.eqb (flushes h) 0 then Some (OtherError "driver: bad connection")
                 else None
             | _ => None
             end.

(** Accepts two transactions and refuses the third [Begin]: in [main],
    the one of the final flush. *)
Definition refuses_third_begin : Store :=
  fun h c => match c with
             | DbBegin =>
                 if Nat.eqb (flushes h) 2 then Some (OtherError "driver: bad connection")
                 else None
             | _ => None
             end.

(** No server listens at the address: [Ping] cannot connect. *)
Definition unreachable : Store :=
  fun _ c => match c with
             | DbPing => Some (OtherError "dial tcp 127.0.0.1:9000: connect: connection refused")
             | _ => None
             end.

(** The server answers the handshake with an exception. *)
Definition handshake_fails : Store :=
  fun _ c => match c with
             | DbPing => Some (Exception 516 "Authentication failed" "DB::Exception")
             | _ => None
             end.

Definition unknown_driver : Store :=
  fun _ c => match c with
             | SqlOpen _ _ => Some (OtherError "sql: unknown driver")
             | _ => None
             end.

Definition record (i : Z) : Entry :=
  {| Time := 1700000000 + i; Level := logrus.InfoLevel; Message := "entry"; Data := [] |}.

(** The hook a successful [NewClickHouseHook dsn B] returns. *)
Definition fresh (B : Z) : ClickHouseHook :=
  {| db := mkDB "clickhouse" dsn; entries := []; batchSize := B |}.

(** The clock of the examples: one second per iteration. *)
Definition demo_clock (i : nat) : Z := 1700000000 + Z.of_nat i.

(** Whether a trace holds a call of [db.Close]. *)
Definition closes (t : Trace) : bool :=
  existsb (fun ev => match fst ev with DbClose => true | _ => false end) t.

(** The answer to the first call of [calls] that the store refuses, the
    calls being made in order after the history [h], each accepted call
    joining the history; [None] when the store accepts them all. *)
Fixpoint first_refusal (store : Store) (h : Trace) (calls : list Call) : option error :=
  match calls with
  | [] => None
  | c :: rest =>
      match store h c with
      | Some err => Some err
      | None => first_refusal store (h ++ [ok c]) rest
      end
  end.

(** ** The rest of the hook and its table *)



(** An entry without its structured fields, and a hook whose buffered
    entries have lost theirs. *)
Definition without_data (entry : Entry) : Entry :=
  {| Time := Time entry; Level := Level entry; Message := Message entry; Data := [] |}.

Definition erase (hook : ClickHouseHook) : ClickHouseHook :=
  set_entries hook (map without_data (entries hook)).

(** The number of calls of [stmt.Close] in a trace. *)
Definition statement_closes (t : Trace) : nat :=
  List.length (filter (fun ev => match fst ev with StmtClose => true | _ => false end) t).

(** The table of [create.sql]: its name and its columns, in the order of
    the declaration. *)
Inductive ColumnType : Type :=
| DateTime
| String_.

Record Table : Type := mkTable {
  table_name : string;
  columns : list (string * ColumnType)
}.

Definition tiered_logs : Table :=
  {| table_name := "tiered_logs";
     columns := [("event_time", DateTime); ("level", String_); ("message", String_)] |}.

(** The parameterized insert that names every column of a table, in
    order, with one placeholder per column. *)
Definition insert_statement (t : Table) : string :=
  String.append "INSERT INTO "
    (String.append (table_name t)
       (String.append " ("
          (String.append (String.concat ", " (map fst (columns t)))
             (String.append ") VALUES ("
                (String.append (String.concat ", " (map (fun _ => "?") (columns t)))
                   ")"))))).

(** Whether an argument of [stmt.Exec] has the type of a column. *)
Definition fits (a : Arg) (ty : ColumnType) : Prop :=
  match a, ty with
  | ArgTime _, DateTime => True
  | ArgText _, String_ => True
  | _, _ => False
  end.

(** ** Basic facts *)

Lemma issued_app {A : Type} (m : M A) (h t : Trace) :
  snd (m h) = h ++ t -> issued m h = t.
Proof.
  intros E. unfold issued. rewrite E, skipn_app, skipn_all, Nat.sub_diag.
  reflexivity.
Qed.

Lemma len_app {A : Type} (l1 l2 : list A) : len (l1 ++ l2) = len l1 + len l2.
Proof. unfold len. rewrite length_app. lia. Qed.

Lemma len_nonneg {A : Type} (l : list A) : 0 <= len l.
Proof. unfold len. lia. Qed.

Lemma len_nil_inv {A : Type} (l : list A) : len l = 0 -> l = [].
Proof. destruct l; [reflexivity | unfold len; simpl; lia]. Qed.

Section Facts.

Variable store : Store.

Lemma exec_entries_ok es h h' :
  exec_entries store es h = (None, h') -> h' = h ++ execs es.
Proof.
  revert h. induction es as [|entry rest IH]; intros h E; simpl in E.
  - unfold ret in E. inversion E. now rewrite app_nil_r.
  - unfold bind, call in E.
    destruct (store h (StmtExec (row entry))) as [err|] eqn:S.
    + discriminate.
    + apply IH in E. subst h'. simpl. now rewrite <- app_assoc.
Qed.

Lemma exec_entries_failed es h h' err :
  exec_entries store es h = (Some err, h') ->
  exists done entry rest,
    es = done ++ entry :: rest /\
    h' = h ++ execs done ++ [(StmtExec (row entry), Some err)] /\
    store (h ++ execs done) (StmtExec (row entry)) = Some err.
Proof.
  revert h. induction es as [|entry rest IH]; intros h E; simpl in E.
  - discriminate.
  - unfold bind, call in E.
    destruct (store h (StmtExec (row entry))) as [err'|] eqn:S.
    + inversion E; subst. exists [], entry, rest. simpl.
      rewrite app_nil_r. auto.
    + apply IH in E. destruct E as (done & e & rest' & -> & -> & S').
      exists (entry :: done), e, rest'. simpl.
      rewrite <- !app_assoc in *. simpl in *. auto.
Qed.

(** Every run of [flush] is one of the five outcomes of [flush_run],
    and the trace only grows. *)
Lemma flush_runs hook h :
  exists t, snd (flush store hook h) = h ++ t /\
            flush_run hook (fst (result (flush store hook) h))
                      (snd (result (flush store hook) h)) t.
Proof.
  unfold result, flush, bind, call.
  destruct (store h DbBegin) as [err|] eqn:SB.
  { eexists. split; [reflexivity | constructor]. }
  destruct (store (h ++ [(DbBegin, None)]) (TxPrepare insertQuery)) as [err|] eqn:SP.
  { simpl. eexists. split; [rewrite <- app_assoc; reflexivity | constructor]. }
  unfold flush_prepared, bind, call.
  destruct (exec_entries store (entries hook)
              ((h ++ [(DbBegin, None)]) ++ [(TxPrepare insertQuery, None)]))
    as [[err|] h1] eqn:EX.
  - apply exec_entries_failed in EX.
    destruct EX as (done & entry & rest & Hes & -> & _). simpl.
    eexists. split.
    + rewrite <- !app_assoc. simpl. reflexivity.
    + apply run_exec_failed with (rest := rest). exact Hes.
  - apply exec_entries_ok in EX. subst h1.
    destruct (store _ TxCommit) as [err|] eqn:SC; simpl.
    + eexists. split.
      * rewrite <- !app_assoc. simpl. reflexivity.
      * apply run_commit_failed.
    + eexists. split.
      * rewrite <- !app_assoc. simpl. reflexivity.
      * apply run_committed.
Qed.

End Facts.

Section FlushFacts.

Variable store : Store.

Lemma flush_trace hook h :
  snd (flush store hook h) = h ++ issued (flush store hook) h.
Proof.
  destruct (flush_runs store hook h) as (t & E & _).
  now rewrite (issued_app _ _ _ E).
Qed.

Lemma flush_issued_run hook h :
  flush_run hook (fst (result (flush store hook) h))
            (snd (result (flush store hook) h))
            (issued (flush store hook) h).
Proof.
  destruct (flush_runs store hook h) as (t & E & R).
  now rewrite (issued_app _ _ _ E).
Qed.

(** A [flush] that returns no error committed the whole buffer and
    cleared it. *)
Lemma flush_success hook h :
  fst (result (flush store hook) h) = None ->
  snd (result (flush store hook) h) = set_entries hook [] /\
  exists c, issued (flush store hook) h = flushed (entries hook) c.
Proof.
  intros E. pose proof (flush_issued_run hook h) as R.
  rewrite E in R. inversion R; subst. split; [reflexivity | now exists c].
Qed.

(** Below the threshold [Fire] only appends; at or above it, [Fire] is
    [flush] on the buffer with the new entry. *)
Lemma Fire_below hook entry h :
  len (entries hook) + 1 < batchSize hook ->
  Fire store hook entry h = ((None, appended hook entry), h).
Proof.
  intros L. unfold Fire. simpl. rewrite len_app.
  change (len [entry]) with 1.
  destruct (Z.geb_spec (len (entries hook) + 1) (batchSize hook)); [lia | reflexivity].
Qed.

Lemma Fire_flush hook entry h :
  batchSize hook <= len (entries hook) + 1 ->
  Fire store hook entry h = flush store (appended hook entry) h.
Proof.
  intros L. unfold Fire. simpl. rewrite len_app.
  change (len [entry]) with 1.
  destruct (Z.geb_spec (len (entries hook) + 1) (batchSize hook)); [| lia].
  unfold bind. destruct (flush store (appended hook entry) h) as [[[err|] hook'] h'];
    reflexivity.
Qed.

Lemma Fire_all_cons hook entry rest h :
  Fire_all store hook (entry :: rest) h =
  (fst (result (Fire store hook entry) h)
     :: fst (result (Fire_all store (snd (result (Fire store hook entry) h)) rest)
                    (snd (Fire store hook entry h))),
   snd (result (Fire_all store (snd (result (Fire store hook entry) h)) rest)
               (snd (Fire store hook entry h))),
   snd (Fire_all store (snd (result (Fire store hook entry) h)) rest
                 (snd (Fire store hook entry h)))).
Proof.
  simpl. unfold bind, result.
  destruct (Fire store hook entry h) as [res h1]. simpl.
  destruct (Fire_all store (snd res) rest h1) as [res' h2]. reflexivity.
Qed.

End FlushFacts.

(** Membership in the traces of [flush_run]. *)
Lemma in_execs ev es :
  In ev (execs es) -> exists entry, In entry es /\ ev = ok (StmtExec (row entry)).
Proof.
  unfold execs. rewrite in_map_iff. intros (entry & <- & I). now exists entry.
Qed.

Lemma receive_execs es s rows :
  pending s = Some rows ->
  fold_left receive (execs es) s =
  {| committed := committed s; pending := Some (rows ++ map row es) |}.
Proof.
  revert s rows. induction es as [|entry rest IH]; intros s rows P; simpl.
  - rewrite app_nil_r. destruct s; simpl in *; now subst.
  - rewrite P. rewrite (IH _ (rows ++ [row entry])) by reflexivity.
    simpl. now rewrite <- app_assoc.
Qed.

Lemma receive_flushed es c s :
  fold_left receive (flushed es c) s =
  {| committed := committed s ++ [map row es]; pending := None |}.
Proof.
  unfold flushed. simpl. rewrite fold_left_app.
  rewrite (receive_execs es _ []) by reflexivity. simpl.
  destruct c; reflexivity.
Qed.

Lemma filter_execs_exec es :
  filter (fun ev : Event => is_exec (fst ev)) (execs es) = execs es.
Proof. induction es; simpl; congruence. Qed.

Lemma filter_execs_begin es :
  filter (fun ev : Event => is_begin (fst ev)) (execs es) = [].
Proof. induction es; simpl; congruence. Qed.

Lemma flushes_flushed es c : flushes (flushed es c) = 1%nat.
Proof.
  unfold flushes, flushed. simpl. rewrite filter_app, filter_execs_begin.
  reflexivity.
Qed.


Lemma flushes_app t1 t2 : flushes (t1 ++ t2) = (flushes t1 + flushes t2)%nat.
Proof. unfold flushes. now rewrite filter_app, length_app. Qed.




(** Closes goals of the form [~ In ev t] and [In ev t -> P] over the
    traces of [flush_run]. *)
Ltac in_trace :=
  repeat match goal with
    | H : In _ (_ :: _) |- _ => destruct H as [H | H]
    | H : In _ (_ ++ _) |- _ => apply in_app_or in H; destruct H as [H | H]
    | H : In _ (execs _) |- _ =>
        apply in_execs in H; let e := fresh "e" in destruct H as (e & _ & H)
    | H : In _ [] |- _ => destruct H
    | H : (_, _) = (_, _) |- _ => inversion H; clear H; subst
    | H : ok _ = (_, _) |- _ => inversion H; clear H; subst
    | H : (_, _) = ok _ |- _ => inversion H; clear H; subst
    end.

(** The outcomes of [flush_run] as equations on the result, the hook and
    the trace. *)
Lemma flush_run_cases hook r hook' t :
  flush_run hook r hook' t ->
  (exists err,
      r = Some err /\
      hook' = hook /\
      t = [(DbBegin, Some err)]) \/
  (exists err,
      r = Some err /\
      hook' = hook /\
      t = [ok DbBegin; (TxPrepare insertQuery, Some err)]) \/
  (exists err done entry rest c,
      r = Some err /\
      hook' = hook /\
      entries hook = done ++ entry :: rest /\
      t =
      ok DbBegin :: ok (TxPrepare insertQuery) :: execs done
      ++ [(StmtExec (row entry), Some err); (StmtClose, c)]) \/
  (exists err c,
      r = Some err /\
      hook' = hook /\
      t =
      ok DbBegin :: ok (TxPrepare insertQuery) :: execs (entries hook)
      ++ [(TxCommit, Some err); (StmtClose, c)]) \/
  (exists c,
      r = None /\
      hook' = set_entries hook [] /\
      t = flushed (entries hook) c).
Proof.
  destruct 1.
  - left. eauto.
  - right. left. eauto.
  - right. right. left. eauto 10.
  - right. right. right. left. eauto.
  - right. right. right. right. exists c. unfold flushed. auto.
Qed.

Lemma flush_cases store hook h :
  (exists err,
      fst (result (flush store hook) h) = Some err /\
      snd (result (flush store hook) h) = hook /\
      issued (flush store hook) h = [(DbBegin, Some err)]) \/
  (exists err,
      fst (result (flush store hook) h) = Some err /\
      snd (result (flush store hook) h) = hook /\
      issued (flush store hook) h = [ok DbBegin; (TxPrepare insertQuery, Some err)]) \/
  (exists err done entry rest c,
      fst (result (flush store hook) h) = Some err /\
      snd (result (flush store hook) h) = hook /\
      entries hook = done ++ entry :: rest /\
      issued (flush store hook) h =
      ok DbBegin :: ok (TxPrepare insertQuery) :: execs done
      ++ [(StmtExec (row entry), Some err); (StmtClose, c)]) \/
  (exists err c,
      fst (result (flush store hook) h) = Some err /\
      snd (result (flush store hook) h) = hook /\
      issued (flush store hook) h =
      ok DbBegin :: ok (TxPrepare insertQuery) :: execs (entries hook)
      ++ [(TxCommit, Some err); (StmtClose, c)]) \/
  (exists c,
      fst (result (flush store hook) h) = None /\
      snd (result (flush store hook) h) = set_entries hook [] /\
      issued (flush store hook) h = flushed (entries hook) c).
Proof. apply flush_run_cases, flush_issued_run. Qed.

Ltac flush_cases store hook h :=
  let e := fresh "e" in
  let done := fresh "done" in
  let entry := fresh "entry" in
  let rest := fresh "rest" in
  let c := fresh "c" in
  let Hr := fresh "Hr" in
  let Hh := fresh "Hh" in
  let Hes := fresh "Hes" in
  let Ht := fresh "Ht" in
  destruct (flush_cases store hook h)
    as [(e & Hr & Hh & Ht)
       | [(e & Hr & Hh & Ht)
         | [(e & done & entry & rest & c & Hr & Hh & Hes & Ht)
           | [(e & c & Hr & Hh & Ht)
             | (c & Hr & Hh & Ht)]]]].

(** A [flush] that returns an error leaves the hook as it was, and the
    error is the answer to one of the calls of the transaction. *)
Lemma flush_failure_kept store hook h err :
  fst (result (flush store hook) h) = Some err ->
  snd (result (flush store hook) h) = hook /\
  exists c, In c (transaction (entries hook)) /\
            In (c, Some err) (issued (flush store hook) h).
Proof.
  intros E. unfold transaction.
  flush_cases store hook h; rewrite Hr in E; try discriminate;
    inversion E; subst e; rewrite Hh, Ht; (split; [reflexivity |]).
  - exists DbBegin. simpl. auto.
  - exists (TxPrepare insertQuery). simpl. auto.
  - exists (StmtExec (row entry)). split.
    + right. right. apply in_or_app. left.
      apply (in_map (fun e => StmtExec (row e))). rewrite Hes.
      apply in_or_app. right. now left.
    + right. right. apply in_or_app. right. now left.
  - exists TxCommit. split.
    + right. right. apply in_or_app. right. now left.
    + right. right. apply in_or_app. right. now left.
Qed.

(** ** Failure of a flush *)

Lemma first_refusal_app store l1 :
  forall h l2,
    first_refusal store h (l1 ++ l2)
    = match first_refusal store h l1 with
      | Some err => Some err
      | None => first_refusal store (h ++ map ok l1) l2
      end.
Proof.
  induction l1 as [|c rest IH]; intros h l2; simpl.
  - now rewrite app_nil_r.
  - destruct (store h c) as [err|]; [reflexivity |].
    rewrite IH, <- app_assoc. reflexivity.
Qed.

Lemma first_refusal_inserts store es tail :
  forall h,
    first_refusal store h (map (fun entry => StmtExec (row entry)) es ++ tail)
    = match fst (exec_entries store es h) with
      | Some err => Some err
      | None => first_refusal store (snd (exec_entries store es h)) tail
      end.
Proof.
  induction es as [|entry rest IH]; intros h; [reflexivity |].
  cbn [map app first_refusal exec_entries]. unfold bind, call. cbv zeta.
  destruct (store h (StmtExec (row entry))) as [err|]; [reflexivity |].
  apply IH.
Qed.

(** What [flush] returns is decided by the first call of its transaction
    that the store refuses. *)
Lemma flush_first_refusal store hook h :
  result (flush store hook) h
  = match first_refusal store h (transaction (entries hook)) with
    | Some err => (Some err, hook)
    | None => (None, set_entries hook [])
    end.
Proof.
  unfold result, flush, bind, call, transaction. cbv zeta.
  cbn [first_refusal].
  destruct (store h DbBegin) as [e1|]; [reflexivity |].
  unfold ok at 1 2.
  destruct (store (h ++ [(DbBegin, None)]) (TxPrepare insertQuery)) as [e2|];
    [reflexivity |].
  rewrite first_refusal_inserts. unfold flush_prepared, bind, call, ok. cbv zeta.
  destruct (exec_entries store (entries hook)
              ((h ++ [(DbBegin, None)]) ++ [(TxPrepare insertQuery, None)]))
    as [[e3|] h3]; cbn [fst snd first_refusal]; [reflexivity |].
  destruct (store h3 TxCommit) as [e4|]; reflexivity.
Qed.

Lemma map_ok_inserts es :
  map ok (map (fun entry => StmtExec (row entry)) es) = execs es.
Proof. unfold execs. now rewrite map_map. Qed.

(** C2. A call of its transaction that the store refuses makes [flush]
    return the error the store answered, with the hook left as it was:
    nothing is cleared.  This holds at the start of the transaction
    ([Begin]), at the [Prepare], at any insert (the calls before it having
    been accepted) and at the [Commit]: what [flush] returns is the answer
    to the first refused call of [Begin], [Prepare], the inserts in buffer
    order, [Commit], and no error when none is refused.  Conversely an
    error [flush] returns is the answer to one of these calls.  [Fire], when
    the append reaches the batch size, returns what the flush it triggers
    returns; it returns an error exactly when that flush does, this very
    error, and the buffer is then the old buffer with the new entry
    appended. *)
Theorem flush_failure_returned_buffer_kept :
  forall store hook h,
    result (flush store hook) h
    = match first_refusal store h (transaction (entries hook)) with
      | Some err => (Some err, hook)
      | None => (None, set_entries hook [])
      end /\
    (forall err,
        store h DbBegin = Some err ->
        result (flush store hook) h = (Some err, hook)) /\
    (forall err,
        store h DbBegin = None ->
        store (h ++ [ok DbBegin]) (TxPrepare insertQuery) = Some err ->
        result (flush store hook) h = (Some err, hook)) /\
    (forall err done entry rest,
        entries hook = done ++ entry :: rest ->
        first_refusal store h
          (DbBegin :: TxPrepare insertQuery
             :: map (fun e => StmtExec (row e)) done) = None ->
        store (h ++ ok DbBegin :: ok (TxPrepare insertQuery) :: execs done)
              (StmtExec (row entry)) = Some err ->
        result (flush store hook) h = (Some err, hook)) /\
    (forall err,
        first_refusal store h
          (DbBegin :: TxPrepare insertQuery
             :: map (fun e => StmtExec (row e)) (entries hook)) = None ->
        store (h ++ ok DbBegin :: ok (TxPrepare insertQuery) :: execs (entries hook))
              TxCommit = Some err ->
        result (flush store hook) h = (Some err, hook)) /\
    (forall err,
        fst (result (flush store hook) h) = Some err ->
        snd (result (flush store hook) h) = hook /\
        exists c, In c (transaction (entries hook)) /\
                  In (c, Some err) (issued (flush store hook) h)) /\
    (forall entry,
        batchSize hook <= len (entries hook) + 1 ->
        result (Fire store hook entry) h
        = result (flush store (appended hook entry)) h) /\
    (forall err entry,
        (fst (result (Fire store hook entry) h) = Some err <->
         batchSize hook <= len (entries hook) + 1 /\
         fst (result (flush store (appended hook entry)) h) = Some err) /\
        (fst (result (Fire store hook entry) h) = Some err ->
         snd (result (Fire store hook entry) h) = appended hook entry)).
Proof.
  intros store hook h.
  pose proof (flush_first_refusal store hook h) as R.
  split; [exact R |].
  split; [| split; [| split; [| split; [| split; [| split]]]]].
  - intros err E. rewrite R. unfold transaction. cbn [first_refusal]. now rewrite E.
  - intros err E1 E2. rewrite R. unfold transaction. cbn [first_refusal].
    now rewrite E1, E2.
  - intros err done entry rest Hes Acc Ref. rewrite R. unfold transaction.
    rewrite Hes, map_app. cbn [map].
    change (DbBegin :: TxPrepare insertQuery
              :: (map (fun e => StmtExec (row e)) done
                  ++ StmtExec (row entry) :: map (fun e => StmtExec (row e)) rest)
                 ++ [TxCommit])
      with ((DbBegin :: TxPrepare insertQuery :: map (fun e => StmtExec (row e)) done
              ++ StmtExec (row entry) :: map (fun e => StmtExec (row e)) rest)
            ++ [TxCommit]).
    rewrite !app_comm_cons, <- app_assoc, first_refusal_app, Acc.
    cbn [map]. rewrite map_ok_inserts. cbn [app first_refusal]. now rewrite Ref.
  - intros err Acc Ref. rewrite R. unfold transaction.
    rewrite !app_comm_cons, first_refusal_app, Acc.
    cbn [map]. rewrite map_ok_inserts. cbn [first_refusal]. now rewrite Ref.
  - intros err. apply flush_failure_kept.
  - intros entry L. unfold result. now rewrite (Fire_flush store hook entry h L).
  - intros err entry.
    destruct (Z_lt_le_dec (len (entries hook) + 1) (batchSize hook)) as [L | L].
    + unfold result. rewrite (Fire_below store hook entry h L). simpl.
      split; [split; [discriminate | lia] | discriminate].
    + unfold result. rewrite (Fire_flush store hook entry h L).
      fold (result (flush store (appended hook entry)) h).
      split; [split; [auto | tauto] |].
      intros E. apply (flush_failure_kept store (appended hook entry) h err E).
Qed.

Lemma flush_failure_example :
  result (flush refuses_begin (set_entries (fresh 2) [record 0; record 1])) []
  = (Some (OtherError "driver: bad connection"),
     set_entries (fresh 2) [record 0; record 1]) /\
  result (flush refuses_second_insert
            (set_entries (fresh 5) [record 0; record 1; record 2])) []
  = (Some (OtherError "insert failed"),
     set_entries (fresh 5) [record 0; record 1; record 2]) /\
  result (flush refuses_commit (set_entries (fresh 2) [record 0; record 1])) []
  = (Some (OtherError "commit failed"), set_entries (fresh 2) [record 0; record 1]) /\
  result (Fire refuses_commit (set_entries (fresh 2) [record 0]) (record 1)) []
  = (Some (OtherError "commit failed"), set_entries (fresh 2) [record 0; record 1]).
Proof.
  destruct (flush_failure_returned_buffer_kept refuses_begin
              (set_entries (fresh 2) [record 0; record 1]) [])
    as (_ & B & _).
  destruct (flush_failure_returned_buffer_kept refuses_second_insert
              (set_entries (fresh 5) [record 0; record 1; record 2]) [])
    as (_ & _ & _ & I & _).
  destruct (flush_failure_returned_buffer_kept refuses_commit
              (set_entries (fresh 2) [record 0; record 1]) [])
    as (_ & _ & _ & _ & C & _).
  destruct (flush_failure_returned_buffer_kept refuses_commit
              (set_entries (fresh 2) [record 0]) [])
    as (_ & _ & _ & _ & _ & _ & F & _).
  split; [| split; [| split]].
  - apply B. reflexivity.
  - apply (I (OtherError "insert failed") [record 0] (record 1) [record 2]);
      reflexivity.
  - apply C; reflexivity.
  - rewrite (F (record 1)) by (vm_compute; discriminate). reflexivity.
Defined.

(** C10. A [flush] that fails after its [Begin] was accepted never issues
    a rollback and has committed nothing: the transaction it opened is
    still open when it returns.  No run of [flush] or [Fire], failed or
    not, issues a rollback. *)
Theorem failed_flush_leaves_transaction_open :
  forall store hook h err,
    fst (result (flush store hook) h) = Some err ->
    In (ok DbBegin) (issued (flush store hook) h) ->
    (forall r, ~ In (TxRollback, r) (issued (flush store hook) h)) /\
    ~ In (ok TxCommit) (issued (flush store hook) h) /\
    (forall s, exists rows,
        pending (fold_left receive (issued (flush store hook) h) s) = Some rows) /\
    (forall entry r, ~ In (TxRollback, r) (issued (Fire store hook entry) h)).
Proof.
  intros store hook h err E B.
  assert (NR : forall hk r, ~ In (TxRollback, r) (issued (flush store hk) h)).
  { intros hk r I.
    flush_cases store hk h; rewrite Ht in I; unfold flushed, ok in *; in_trace. }
  split; [apply NR |].
  split; [| split].
  - intros I.
    flush_cases store hook h; rewrite Hr in E; try discriminate;
      rewrite Ht in I; unfold ok in *; in_trace.
  - intros s.
    flush_cases store hook h; rewrite Hr in E; try discriminate; rewrite Ht in *.
    + unfold ok in B. in_trace.
    + exists []. reflexivity.
    + exists (map row done). simpl. rewrite fold_left_app.
      rewrite (receive_execs done _ []) by reflexivity. destruct c; reflexivity.
    + exists (map row (entries hook)). simpl. rewrite fold_left_app.
      rewrite (receive_execs (entries hook) _ []) by reflexivity.
      destruct c; reflexivity.
  - intros entry r.
    destruct (Z_lt_le_dec (len (entries hook) + 1) (batchSize hook)) as [L | L].
    + unfold issued. rewrite (Fire_below store hook entry h L). simpl.
      rewrite skipn_all. intros [].
    + unfold issued. rewrite (Fire_flush store hook entry h L).
      apply (NR (appended hook entry) r).
Qed.

Lemma failed_flush_example :
  let hook := set_entries (fresh 2) [record 0; record 1] in
  (forall r, ~ In (TxRollback, r) (issued (flush refuses_commit hook) [])) /\
  ~ In (ok TxCommit) (issued (flush refuses_commit hook) []) /\
  (forall s, exists rows,
      pending (fold_left receive (issued (flush refuses_commit hook) []) s) = Some rows) /\
  (forall entry r, ~ In (TxRollback, r) (issued (Fire refuses_commit hook entry) [])).
Proof.
  apply (failed_flush_leaves_transaction_open refuses_commit
           (set_entries (fresh 2) [record 0; record 1]) []
           (OtherError "commit failed")).
  - reflexivity.
  - left. reflexivity.
Defined.

(** ** What a flush sends *)



(** ** Flushing an empty buffer *)

(** C4, as the code has it. A [flush] on an empty buffer issues no insert
    and leaves the hook as it is, but it is not skipped: it begins a
    transaction, prepares the statement and commits, and it succeeds
    exactly when the store accepts these three calls. *)
Theorem flush_of_empty_buffer :
  forall store d B h,
    let hook := {| db := d; entries := []; batchSize := B |} in
    inserts (issued (flush store hook) h) = 0%nat /\
    snd (result (flush store hook) h) = hook /\
    flushes (issued (flush store hook) h) = 1%nat /\
    (fst (result (flush store hook) h) = None <->
     store h DbBegin = None /\
     store (h ++ [ok DbBegin]) (TxPrepare insertQuery) = None /\
     store (h ++ [ok DbBegin; ok (TxPrepare insertQuery)]) TxCommit = None).
Proof.
  intros store d B h hook.
  split; [| split; [| split]].
  - flush_cases store hook h; rewrite Ht; try reflexivity.
    simpl in Hes. destruct done; discriminate.
  - flush_cases store hook h; rewrite Hh; reflexivity.
  - flush_cases store hook h; rewrite Ht; try reflexivity.
    simpl in Hes. destruct done; discriminate.
  - unfold result, flush, bind, call, flush_prepared, bind, call, ok.
    cbn [entries hook exec_entries ret].
    destruct (store h DbBegin) as [e1|] eqn:E1.
    { cbn. split; [discriminate | intros (E & _); discriminate]. }
    match goal with
    | |- context [match ?x with Some _ => _ | None => _ end] =>
        destruct x as [e2|] eqn:E2
    end.
    { cbn. split; [discriminate | intros (_ & E & _)].
      congruence. }
    rewrite <- app_assoc in *. cbn [app] in *.
    match goal with
    | |- context [match ?x with Some _ => _ | None => _ end] =>
        destruct x as [e3|] eqn:E3
    end.
    { cbn. split; [discriminate | intros (_ & _ & E)].
      congruence. }
    cbn. split; [intros _ | reflexivity].
    repeat split; auto.
Qed.

(** C4 as stated fails: with a store that refuses [Begin], a [flush] on
    the empty buffer returns the error; and with a store that accepts
    everything it still sends an empty transaction. *)
Lemma flush_of_empty_buffer_can_fail :
  fst (result (flush refuses_begin (fresh 5)) [])
  = Some (OtherError "driver: bad connection") /\
  issued (flush accepts_everything (fresh 5)) []
  = [ok DbBegin; ok (TxPrepare insertQuery); ok TxCommit; ok StmtClose].
Proof. split; reflexivity. Qed.

(** ** Runs of appends *)

Lemma batching_nonpositive B es :
  B <= 0 -> batching B [] es = (map (fun entry => [entry]) es, []).
Proof.
  intros L. induction es as [|entry rest IH]; [reflexivity |].
  simpl. change (len [entry]) with 1.
  destruct (Z.geb_spec 1 B); [| lia]. now rewrite IH.
Qed.

Lemma batching_concat B es :
  forall buf, List.concat (fst (batching B buf es)) ++ snd (batching B buf es) = buf ++ es.
Proof.
  induction es as [|entry rest IH]; intros buf; simpl.
  - now rewrite app_nil_r.
  - destruct (len (buf ++ [entry]) >=? B); simpl.
    + rewrite <- app_assoc, (IH []). simpl. now rewrite <- app_assoc.
    + rewrite IH. now rewrite <- app_assoc.
Qed.

Lemma batching_sizes B es :
  0 < B ->
  forall buf, len buf < B ->
    Forall (fun b => len b = B) (fst (batching B buf es)) /\
    len (snd (batching B buf es)) < B.
Proof.
  intros HB. induction es as [|entry rest IH]; intros buf L; simpl.
  - split; [constructor | exact L].
  - destruct (Z.geb_spec (len (buf ++ [entry])) B) as [G | G]; simpl.
    + destruct (IH [] HB) as [F R]. split; [| exact R].
      constructor; [| exact F].
      rewrite len_app in *. change (len [entry]) with 1 in *. lia.
    + apply IH. exact G.
Qed.

Lemma len_concat_uniform {A : Type} (B : Z) (bs : list (list A)) :
  Forall (fun b => len b = B) bs -> len (List.concat bs) = B * len bs.
Proof.
  induction 1 as [|b bs Hb _ IH]; simpl.
  - unfold len. simpl. lia.
  - rewrite len_app, IH, Hb. unfold len. cbn [List.length]. lia.
Qed.

(** With a positive threshold, a run that starts below it flushes
    [N / B] full batches and keeps [N mod B] entries, [N] being the number
    of entries buffered or appended. *)
Lemma batching_count B es buf :
  0 < B -> len buf < B ->
  len (fst (batching B buf es)) = (len buf + len es) / B /\
  len (snd (batching B buf es)) = (len buf + len es) mod B.
Proof.
  intros HB L.
  destruct (batching_sizes B es HB buf L) as [F R].
  pose proof (batching_concat B es buf) as C.
  apply (f_equal len) in C. rewrite !len_app, (len_concat_uniform B _ F) in C.
  pose proof (len_nonneg (snd (batching B buf es))) as P.
  split.
  - apply Z.div_unique with (r := len (snd (batching B buf es))); lia.
  - apply Z.mod_unique with (q := len (fst (batching B buf es))); lia.
Qed.

Section Runs.

Variable store : Store.

Lemma Fire_all_result_cons hook entry rest h :
  result (Fire_all store hook (entry :: rest)) h =
  (fst (result (Fire store hook entry) h)
     :: fst (result (Fire_all store (snd (result (Fire store hook entry) h)) rest)
                    (snd (Fire store hook entry h))),
   snd (result (Fire_all store (snd (result (Fire store hook entry) h)) rest)
               (snd (Fire store hook entry h)))).
Proof. unfold result at 1. now rewrite Fire_all_cons. Qed.

Lemma Fire_all_trace_cons hook entry rest h :
  snd (Fire_all store hook (entry :: rest) h) =
  snd (Fire_all store (snd (result (Fire store hook entry) h)) rest
                (snd (Fire store hook entry h))).
Proof. now rewrite Fire_all_cons. Qed.

(** A run of appends in which every [Fire] returned no error follows
    [batching]: the batches are committed one transaction each, in order,
    and the rest stays in the buffer. *)
Lemma Fire_all_success B es :
  forall hook h,
    batchSize hook = B ->
    Forall (fun r => r = None) (fst (result (Fire_all store hook es) h)) ->
    snd (Fire_all store hook es h) = h ++ issued (Fire_all store hook es) h /\
    entries (snd (result (Fire_all store hook es) h)) = snd (batching B (entries hook) es) /\
    batchSize (snd (result (Fire_all store hook es) h)) = B /\
    flushes (issued (Fire_all store hook es) h)
    = List.length (fst (batching B (entries hook) es)) /\
    (forall s, committed (fold_left receive (issued (Fire_all store hook es) h) s)
               = committed s ++ map (map row) (fst (batching B (entries hook) es))).
Proof.
  induction es as [|entry rest IH]; intros hook h HB HF.
  - assert (I : issued (Fire_all store hook []) h = []).
    { apply issued_app. simpl. now rewrite app_nil_r. }
    rewrite I. simpl. rewrite !app_nil_r. repeat split; auto.
    intros s. now rewrite app_nil_r.
  - rewrite Fire_all_result_cons in HF. simpl in HF.
    inversion HF as [|r rs Hhead Htail]; subst r rs. clear HF.
    rewrite Fire_all_result_cons. cbn [fst snd batching].
    destruct (Z.geb_spec (len (entries hook ++ [entry])) B) as [G | G].
    + (* the append reaches the threshold: Fire is flush *)
      assert (L : batchSize hook <= len (entries hook) + 1).
      { rewrite len_app in G. change (len [entry]) with 1 in G. lia. }
      pose proof (Fire_flush store hook entry h L) as EF.
      unfold result in Hhead, Htail |- *. rewrite EF in Hhead, Htail |- *.
      fold (result (flush store (appended hook entry)) h) in Hhead, Htail |- *.
      destruct (flush_success store _ h Hhead) as (Hh & c & Ht).
      pose proof (flush_trace store (appended hook entry) h) as Tr.
      rewrite Ht in Tr. rewrite Hh, Tr in Htail |- *.
      destruct (IH (set_entries (appended hook entry) []) (h ++ flushed (entries (appended hook entry)) c))
        as (T1 & E1 & B1 & F1 & C1); [exact HB | exact Htail |].
      assert (I : issued (Fire_all store hook (entry :: rest)) h
                  = flushed (entries (appended hook entry)) c
                    ++ issued (Fire_all store (set_entries (appended hook entry) []) rest)
                         (h ++ flushed (entries (appended hook entry)) c)).
      { apply issued_app. rewrite Fire_all_trace_cons. unfold result.
        rewrite EF. fold (result (flush store (appended hook entry)) h).
        rewrite Hh, Tr, T1 at 1. now rewrite <- app_assoc. }
      rewrite I. cbn [fst snd] in *.
      repeat split.
      * rewrite Fire_all_trace_cons. unfold result.
        rewrite EF. fold (result (flush store (appended hook entry)) h).
        rewrite Hh, Tr, T1 at 1. now rewrite <- app_assoc.
      * exact E1.
      * exact B1.
      * rewrite flushes_app, flushes_flushed, F1. reflexivity.
      * intros s. rewrite fold_left_app, receive_flushed, C1. simpl.
        now rewrite <- app_assoc.
    + (* below the threshold: Fire only appends *)
      assert (L : len (entries hook) + 1 < batchSize hook).
      { rewrite len_app in G. change (len [entry]) with 1 in G. lia. }
      pose proof (Fire_below store hook entry h L) as EF.
      unfold result in Htail |- *. rewrite EF in Htail |- *. cbn [fst snd] in *.
      fold (result (Fire_all store (appended hook entry) rest) h) in Htail |- *.
      destruct (IH (appended hook entry) h) as (T1 & E1 & B1 & F1 & C1);
        [exact HB | exact Htail |].
      assert (I : issued (Fire_all store hook (entry :: rest)) h
                  = issued (Fire_all store (appended hook entry) rest) h).
      { apply issued_app. rewrite Fire_all_trace_cons. unfold result.
        rewrite EF. cbn [fst snd]. exact T1. }
      rewrite I.
      repeat split; auto.
      rewrite Fire_all_trace_cons. unfold result. rewrite EF. cbn [fst snd]. exact T1.
Qed.

End Runs.

Lemma len_map {A B : Type} (f : A -> B) (l : list A) : len (map f l) = len l.
Proof. unfold len. now rewrite length_map. Qed.

Lemma ceil_div_remainder N B :
  0 < B -> N mod B <> 0 -> ceil_div N B = N / B + 1.
Proof.
  intros HB R. unfold ceil_div.
  pose proof (Z.div_mod N B ltac:(lia)) as D.
  pose proof (Z.mod_pos_bound N B HB) as P.
  symmetry. apply Z.div_unique with (r := N mod B - 1); lia.
Qed.

Lemma split_at_length {A : Type} (b r l : list A) :
  b ++ r = l -> firstn (List.length b) l = b /\ skipn (List.length b) l = r.
Proof.
  intros <-. split.
  - rewrite firstn_app, firstn_all, Nat.sub_diag. simpl. apply app_nil_r.
  - rewrite skipn_app, skipn_all, Nat.sub_diag. reflexivity.
Qed.

Section Accepting.

Variable store : Store.
Hypothesis accepting : accepts_all store.

Lemma exec_entries_accepted es :
  forall h, fst (exec_entries store es h) = None.
Proof.
  induction es as [|entry rest IH]; intros h; simpl; [reflexivity |].
  unfold bind, call. rewrite accepting. apply IH.
Qed.

Lemma flush_accepted hook h : fst (result (flush store hook) h) = None.
Proof.
  unfold result, flush, bind, call. rewrite accepting. rewrite accepting.
  unfold flush_prepared, bind, call.
  match goal with
  | |- context [exec_entries store ?es ?h0] =>
      pose proof (exec_entries_accepted es h0) as E;
      destruct (exec_entries store es h0) as [r h1]
  end.
  simpl in E. subst r. rewrite accepting. reflexivity.
Qed.

Lemma Fire_accepted hook entry h : fst (result (Fire store hook entry) h) = None.
Proof.
  destruct (Z_lt_le_dec (len (entries hook) + 1) (batchSize hook)) as [L | L].
  - unfold result. now rewrite (Fire_below store hook entry h L).
  - unfold result. rewrite (Fire_flush store hook entry h L). apply flush_accepted.
Qed.

Lemma Fire_all_accepted es :
  forall hook h, Forall (fun r => r = None) (fst (result (Fire_all store hook es) h)).
Proof.
  induction es as [|entry rest IH]; intros hook h.
  - constructor.
  - rewrite Fire_all_result_cons. simpl. constructor; [apply Fire_accepted | apply IH].
Qed.

End Accepting.

(** What the store has received after a run of successful appends: the
    batches of [batching], row by row. *)
Lemma batches_of_run store B es hook h :
  batchSize hook = B ->
  Forall (fun r => r = None) (fst (result (Fire_all store hook es) h)) ->
  batches (issued (Fire_all store hook es) h)
  = map (map row) (fst (batching B (entries hook) es)).
Proof.
  intros HB HF.
  destruct (Fire_all_success store B es hook h HB HF) as (_ & _ & _ & _ & C).
  unfold batches. now rewrite C.
Qed.

(** ** Batches of a run of appends *)

(** C1, as the code has it. Take [N] appends with a positive batch size
    [B], starting from the empty buffer, every [Fire] returning no error.
    The store has then received exactly [N / B] batches (the quotient
    rounded down), each of exactly [B] records; the [N mod B] last records
    are still buffered, and the batches followed by the buffer are the
    records in the order they were appended.  When the remainder is not
    empty and a final [flush] succeeds, the store has received one batch
    more, [ceil (N / B)] in all, none larger than [B], and the batches
    together are the records in append order. *)
Theorem batches_of_a_run_of_appends :
  forall store B es h hook,
    0 < B -> batchSize hook = B -> entries hook = [] ->
    Forall (fun r => r = None) (fst (result (Fire_all store hook es) h)) ->
    let t := issued (Fire_all store hook es) h in
    let final := snd (result (Fire_all store hook es) h) in
    len (batches t) = len es / B /\
    Forall (fun b => len b = B) (batches t) /\
    List.concat (batches t) ++ map row (entries final) = map row es /\
    len (entries final) = len es mod B /\
    (entries final <> [] ->
     fst (result (flush store final) (h ++ t)) = None ->
     let t' := t ++ issued (flush store final) (h ++ t) in
     len (batches t') = len es / B + 1 /\
     len (batches t') = ceil_div (len es) B /\
     Forall (fun b => len b <= B) (batches t') /\
     List.concat (batches t') = map row es /\
     entries (snd (result (flush store final) (h ++ t))) = []).
Proof.
  intros store B es h hook HB Hsize Hempty HF t final.
  pose proof (batches_of_run store B es hook h Hsize HF) as HBt.
  destruct (Fire_all_success store B es hook h Hsize HF) as (_ & Hfin & _ & _ & HC).
  fold t in HBt, HC. fold final in Hfin. rewrite Hempty in *.
  assert (L0 : len (@nil Entry) < B) by (unfold len; simpl; lia).
  destruct (batching_sizes B es HB [] L0) as [Hsz Hrem].
  destruct (batching_count B es [] HB L0) as [Hq Hr].
  change (len (@nil Entry)) with 0 in Hq, Hr. rewrite Z.add_0_l in Hq, Hr.
  pose proof (batching_concat B es []) as Hcat. simpl in Hcat.
  assert (Hall : Forall (fun b => len b = B) (batches t)).
  { rewrite HBt. apply Forall_map. eapply Forall_impl; [| exact Hsz].
    intros b Hb. simpl. now rewrite len_map. }
  assert (Hcc : List.concat (batches t) ++ map row (entries final) = map row es).
  { rewrite HBt, Hfin, <- concat_map, <- map_app, Hcat. reflexivity. }
  split; [rewrite HBt, len_map; exact Hq |].
  split; [exact Hall |].
  split; [exact Hcc |].
  split; [rewrite Hfin; exact Hr |].
  intros Hne Hflush t'.
  destruct (flush_success store final (h ++ t) Hflush) as (Hh & c & Ht).
  assert (HBt' : batches t' = batches t ++ [map row (entries final)]).
  { unfold t', batches. rewrite Ht, fold_left_app, receive_flushed. reflexivity. }
  assert (Hlen : len (batches t') = len es / B + 1).
  { rewrite HBt', len_app, HBt, len_map, Hq. reflexivity. }
  split; [exact Hlen |].
  split.
  { rewrite Hlen. symmetry. apply ceil_div_remainder; [exact HB |].
    rewrite <- Hr, <- Hfin. intros Z. apply Hne. now apply len_nil_inv. }
  split.
  { rewrite HBt'. apply Forall_app. split.
    - eapply Forall_impl; [| exact Hall]. intros b Hb. simpl in *. lia.
    - constructor; [| constructor]. rewrite len_map, Hfin. lia. }
  split.
  { rewrite HBt', concat_app. simpl. rewrite app_nil_r. exact Hcc. }
  rewrite Hh. reflexivity.
Qed.

Lemma batches_of_seven_appends :
  let run := Fire_all accepts_everything (fresh 3) (map record [0; 1; 2; 3; 4; 5; 6]) in
  let t := issued run [] in
  let final := snd (result run []) in
  len (batches t) = 2 /\
  List.concat (batches t) ++ map row (entries final) = map row (map record [0; 1; 2; 3; 4; 5; 6]) /\
  len (batches (t ++ issued (flush accepts_everything final) ([] ++ t))) = 3 /\
  ceil_div 7 3 = 3.
Proof.
  pose proof (batches_of_a_run_of_appends accepts_everything 3
                (map record [0; 1; 2; 3; 4; 5; 6]) [] (fresh 3)
                eq_refl eq_refl eq_refl
                ltac:(vm_compute; repeat constructor))
    as (H1 & _ & H3 & _ & H5).
  destruct H5 as (H6 & _); [discriminate | reflexivity |].
  split; [exact H1 | split; [exact H3 | split; [exact H6 | reflexivity]]].
Defined.

(** C1 as stated fails. Three appends with batch size 5 on a store that
    accepts everything: the store has received no batch, not
    [ceil (3 / 5) = 1]; after the final flush of the three buffered records
    it has received one batch, not one more than [ceil (3 / 5)]. *)
Lemma ceil_count_fails_below_threshold :
  let run := Fire_all accepts_everything (fresh 5) [record 0; record 1; record 2] in
  let t := issued run [] in
  let final := snd (result run []) in
  batches t = [] /\
  ceil_div 3 5 = 1 /\
  entries final = [record 0; record 1; record 2] /\
  batches (t ++ issued (flush accepts_everything final) t)
  = [[row (record 0); row (record 1); row (record 2)]] /\
  batches (issued (Fire_all refuses_begin (fresh 2) [record 0; record 1]) []) = [] /\
  ceil_div 2 2 = 1.
Proof. repeat split; reflexivity. Qed.

(** ** The size of the buffer *)

(** C5, as the code has it. With a positive batch size [B] and a buffer
    that starts below [B], as long as every [Fire] has returned no error
    (every flush it triggered went through) the buffer holds fewer than
    [B] records after each [Fire] returns; so the next append takes it to
    at most [B], which is reached only between the append and the flush
    it triggers.  After a [Fire] that returned an error, the buffer holds
    all its records, the new one included. *)
Theorem buffer_below_threshold_while_flushes_succeed :
  forall store B es h hook,
    0 < B -> batchSize hook = B -> len (entries hook) < B ->
    Forall (fun r => r = None) (fst (result (Fire_all store hook es) h)) ->
    let final := snd (result (Fire_all store hook es) h) in
    len (entries final) < B /\
    batchSize final = B /\
    (forall entry, len (entries (appended final entry)) <= B) /\
    (forall entry h',
        fst (result (Fire store final entry) h') = None ->
        len (entries (snd (result (Fire store final entry) h'))) < B) /\
    (forall entry h',
        fst (result (Fire store final entry) h') <> None ->
        entries (snd (result (Fire store final entry) h')) = entries final ++ [entry]).
Proof.
  intros store B es h hook HB Hsize Hlow HF final.
  destruct (Fire_all_success store B es hook h Hsize HF) as (_ & Hfin & HBf & _ & _).
  fold final in Hfin, HBf.
  destruct (batching_sizes B es HB (entries hook) Hlow) as [_ Hrem].
  rewrite <- Hfin in Hrem.
  split; [exact Hrem |]. split; [exact HBf |].
  split; [| split].
  - intros entry. simpl. rewrite len_app. change (len [entry]) with 1. lia.
  - intros entry h' E.
    destruct (Z_lt_le_dec (len (entries final) + 1) (batchSize final)) as [L | L].
    + unfold result. rewrite (Fire_below store final entry h' L). simpl.
      rewrite len_app. change (len [entry]) with 1. lia.
    + unfold result in E |- *. rewrite (Fire_flush store final entry h' L) in E |- *.
      destruct (flush_success store _ h' E) as (Hh & _).
      unfold result in Hh. rewrite Hh. simpl. exact HB.
  - intros entry h' E.
    destruct (Z_lt_le_dec (len (entries final) + 1) (batchSize final)) as [L | L].
    + unfold result in E |- *. rewrite (Fire_below store final entry h' L) in E |- *.
      reflexivity.
    + unfold result in E |- *. rewrite (Fire_flush store final entry h' L) in E |- *.
      fold (result (flush store (appended final entry)) h') in E |- *.
      destruct (fst (result (flush store (appended final entry)) h')) as [err|] eqn:Er;
        [| contradiction].
      destruct (flush_failure_kept store (appended final entry) h' err Er) as [Hh _].
      rewrite Hh. reflexivity.
Qed.

Lemma buffer_after_seven_appends :
  let final := snd (result (Fire_all accepts_everything (fresh 3)
                              (map record [0; 1; 2; 3; 4; 5; 6])) []) in
  len (entries final) < 3 /\ entries final = [record 6].
Proof.
  pose proof (buffer_below_threshold_while_flushes_succeed accepts_everything 3
                (map record [0; 1; 2; 3; 4; 5; 6]) [] (fresh 3)
                eq_refl eq_refl eq_refl
                ltac:(vm_compute; repeat constructor))
    as (H1 & _).
  split; [exact H1 | reflexivity].
Defined.

(** C5 as stated fails. With batch size 2 and a store that refuses
    [Begin], the second [Fire] returns with 2 records buffered (not fewer
    than 2) and the third with 3: the buffer stays above the batch size
    after the appends have returned. *)
Lemma buffer_grows_when_flush_fails :
  fst (result (Fire_all refuses_begin (fresh 2) [record 0; record 1]) [])
  = [None; Some (OtherError "driver: bad connection")] /\
  len (entries (snd (result (Fire_all refuses_begin (fresh 2) [record 0; record 1]) [])))
  = 2 /\
  len (entries (snd (result (Fire_all refuses_begin (fresh 2)
                               [record 0; record 1; record 2]) [])))
  = 3 /\
  batchSize (snd (result (Fire_all refuses_begin (fresh 2)
                            [record 0; record 1; record 2]) []))
  = 2.
Proof. repeat split; reflexivity. Qed.

(** ** At the threshold *)

(** C6, as the code has it. Start from the empty buffer with a positive
    batch size [B], every [Fire] returning no error.  Appending exactly
    [B] records triggers exactly one flush, of these records, and leaves
    the buffer empty.  When [B] is at least 2, appending [B + 1] records
    triggers exactly one flush, of the first [B] records, and leaves
    exactly the last record buffered. *)
Theorem threshold_boundary :
  forall store B es h hook,
    0 < B -> batchSize hook = B -> entries hook = [] ->
    Forall (fun r => r = None) (fst (result (Fire_all store hook es) h)) ->
    let t := issued (Fire_all store hook es) h in
    let final := snd (result (Fire_all store hook es) h) in
    (len es = B ->
     flushes t = 1%nat /\ batches t = [map row es] /\ entries final = []) /\
    (2 <= B -> len es = B + 1 ->
     flushes t = 1%nat /\
     batches t = [map row (firstn (Z.to_nat B) es)] /\
     entries final = skipn (Z.to_nat B) es /\
     len (entries final) = 1).
Proof.
  intros store B es h hook HB Hsize Hempty HF t final.
  pose proof (batches_of_run store B es hook h Hsize HF) as HBt.
  destruct (Fire_all_success store B es hook h Hsize HF) as (_ & Hfin & _ & Hfl & _).
  fold t in HBt, Hfl. fold final in Hfin. rewrite Hempty in *.
  assert (L0 : len (@nil Entry) < B) by (unfold len; simpl; lia).
  destruct (batching_sizes B es HB [] L0) as [Hsz Hrem].
  destruct (batching_count B es [] HB L0) as [Hq Hr].
  change (len (@nil Entry)) with 0 in Hq, Hr. rewrite Z.add_0_l in Hq, Hr.
  pose proof (batching_concat B es []) as Hcat. simpl in Hcat.
  rewrite <- Hfin in Hcat, Hr.
  destruct (fst (batching B [] es)) as [|b [|b' bs]] eqn:Ebs.
  - (* no batch: excluded in both cases *)
    change (len (@nil (list Entry))) with 0 in Hq.
    split.
    + intros HN. rewrite HN, Z.div_same in Hq by lia. discriminate.
    + intros H2 HN. rewrite HN in Hq.
      rewrite <- (Z.div_unique (B + 1) B 1 1) in Hq by lia. discriminate.
  - (* exactly one batch *)
    simpl in Hcat. rewrite app_nil_r in Hcat.
    inversion Hsz as [|b0 bs0 Hb _]; subst b0 bs0.
    split.
    + intros HN. rewrite HN, Z.mod_same in Hr by lia.
      apply len_nil_inv in Hr. rewrite Hr, app_nil_r in Hcat. subst b.
      rewrite Hfl, HBt. auto.
    + intros H2 HN. rewrite HN in Hr.
      rewrite <- (Z.mod_unique (B + 1) B 1 1) in Hr by lia.
      destruct (split_at_length b (entries final) es Hcat) as [Hf Hs].
      assert (Hn : List.length b = Z.to_nat B) by (unfold len in Hb; lia).
      rewrite Hn in Hf, Hs.
      split; [now rewrite Hfl |].
      split; [now rewrite HBt, Hf |].
      split; [now rewrite Hs | exact Hr].
  - (* two batches or more: excluded in both cases *)
    assert (Hq2 : 2 <= len es / B).
    { rewrite <- Hq. unfold len. simpl. lia. }
    split.
    + intros HN. rewrite HN, Z.div_same in Hq2 by lia. lia.
    + intros H2 HN. rewrite HN in Hq2.
      rewrite <- (Z.div_unique (B + 1) B 1 1) in Hq2 by lia. lia.
Qed.

Lemma threshold_boundary_example :
  let run4 := Fire_all accepts_everything (fresh 3) (map record [0; 1; 2; 3]) in
  flushes (issued run4 []) = 1%nat /\
  batches (issued run4 []) = [map row (map record [0; 1; 2])] /\
  entries (snd (result run4 [])) = [record 3] /\
  len (entries (snd (result run4 []))) = 1.
Proof.
  pose proof (threshold_boundary accepts_everything 3
                (map record [0; 1; 2; 3]) [] (fresh 3)
                eq_refl eq_refl eq_refl
                ltac:(vm_compute; repeat constructor))
    as (_ & H).
  apply H; [lia | reflexivity].
Defined.

(** C6 as stated fails. With batch size 1 on a store that accepts
    everything, appending [1 + 1] records triggers two flushes and leaves
    the buffer empty.  And on a store that refuses [Begin], appending
    exactly [B = 2] records leaves both in the buffer. *)
Lemma batch_size_one_flushes_twice :
  let run := Fire_all accepts_everything (fresh 1) [record 0; record 1] in
  flushes (issued run []) = 2%nat /\
  batches (issued run []) = [[row (record 0)]; [row (record 1)]] /\
  entries (snd (result run [])) = [] /\
  entries (snd (result (Fire_all refuses_begin (fresh 2) [record 0; record 1]) []))
  = [record 0; record 1].
Proof. repeat split; reflexivity. Qed.

(** ** Construction *)

(** The three ways [NewClickHouseHook] ends, by the answers of the store
    to [sql.Open] and to [Ping]. *)
Lemma NewClickHouseHook_cases store d B h :
  result (NewClickHouseHook store d B) h =
  match store h (SqlOpen "clickhouse" d) with
  | Some err => Returned (None, Some err)
  | None =>
      match store (h ++ [ok (SqlOpen "clickhouse" d)]) DbPing with
      | Some (Exception code msg stack) => Exited 1 (FatalException code msg stack)
      | Some (OtherError text) => Exited 1 (FatalErr (OtherError text))
      | None => Returned (Some {| db := mkDB "clickhouse" d; entries := [];
                                  batchSize := B |}, None)
      end
  end.
Proof.
  unfold result, NewClickHouseHook, bind, call, ok. cbv zeta.
  destruct (store h (SqlOpen "clickhouse" d)) as [e1|]; [reflexivity |].
  destruct (store (h ++ [(SqlOpen "clickhouse" d, None)]) DbPing) as [[code msg stack|text]|];
    reflexivity.
Qed.

(** C3, as the code has it. When [sql.Open] fails, [NewClickHouseHook]
    returns that error and no hook.  When the store is unreachable or the
    handshake fails, which shows at [Ping], [NewClickHouseHook] does not
    return to its caller: it ends the process with status 1 and a
    diagnostic.  A hook is returned only when both calls were accepted;
    in every other case no hook, hence no buffer, is created. *)
Theorem NewClickHouseHook_outcomes :
  forall store d B h,
    (forall err,
        store h (SqlOpen "clickhouse" d) = Some err ->
        result (NewClickHouseHook store d B) h = Returned (None, Some err)) /\
    (forall err,
        store h (SqlOpen "clickhouse" d) = None ->
        store (h ++ [ok (SqlOpen "clickhouse" d)]) DbPing = Some err ->
        result (NewClickHouseHook store d B) h
        = Exited 1 (match err with
                    | Exception code msg stack => FatalException code msg stack
                    | OtherError _ => FatalErr err
                    end)) /\
    (forall hook e,
        result (NewClickHouseHook store d B) h = Returned (Some hook, e) ->
        store h (SqlOpen "clickhouse" d) = None /\
        store (h ++ [ok (SqlOpen "clickhouse" d)]) DbPing = None /\
        e = None /\
        hook = {| db := mkDB "clickhouse" d; entries := []; batchSize := B |}).
Proof.
  intros store d B h. rewrite NewClickHouseHook_cases.
  split; [| split].
  - intros err ->. reflexivity.
  - intros err -> ->. destruct err; reflexivity.
  - intros hook e.
    destruct (store h (SqlOpen "clickhouse" d)) as [e1|]; [discriminate |].
    destruct (store (h ++ [ok (SqlOpen "clickhouse" d)]) DbPing)
      as [[code msg stack|text]|]; try discriminate.
    intros E. inversion E. auto.
Qed.

Lemma NewClickHouseHook_example :
  result (NewClickHouseHook unknown_driver dsn 5) []
  = Returned (None, Some (OtherError "sql: unknown driver")) /\
  result (NewClickHouseHook handshake_fails dsn 5) []
  = Exited 1 (FatalException 516 "Authentication failed" "DB::Exception") /\
  result (NewClickHouseHook accepts_everything dsn 5) []
  = Returned (Some (fresh 5), None).
Proof.
  destruct (NewClickHouseHook_outcomes unknown_driver dsn 5 []) as (H1 & _ & _).
  destruct (NewClickHouseHook_outcomes handshake_fails dsn 5 []) as (_ & H2 & _).
  split; [| split].
  - apply H1. reflexivity.
  - apply (H2 (Exception 516 "Authentication failed" "DB::Exception")); reflexivity.
  - reflexivity.
Defined.

(** C3 as stated fails. With an unreachable store, and with a store whose
    handshake fails, [NewClickHouseHook] returns nothing to its caller,
    no error either: the process has exited. *)
Lemma unreachable_store_ends_the_process :
  result (NewClickHouseHook unreachable dsn 5) []
  = Exited 1 (FatalErr (OtherError "dial tcp 127.0.0.1:9000: connect: connection refused")) /\
  result (NewClickHouseHook handshake_fails dsn 5) []
  = Exited 1 (FatalException 516 "Authentication failed" "DB::Exception") /\
  (forall err, result (NewClickHouseHook unreachable dsn 5) [] <> Returned (None, Some err)).
Proof. split; [reflexivity | split; [reflexivity | discriminate]]. Qed.

(** What one [flush] adds to the committed batches, by its result. *)
Lemma flush_atomic store hook h s :
  match fst (result (flush store hook) h) with
  | None =>
      committed (fold_left receive (issued (flush store hook) h) s)
      = committed s ++ [map row (entries hook)] /\
      snd (result (flush store hook) h) = set_entries hook []
  | Some _ =>
      committed (fold_left receive (issued (flush store hook) h) s) = committed s /\
      snd (result (flush store hook) h) = hook
  end.
Proof.
  flush_cases store hook h; rewrite Hr, Hh, Ht.
  - split; reflexivity.
  - split; reflexivity.
  - split; [| reflexivity]. simpl. rewrite fold_left_app.
    rewrite (receive_execs done _ []) by reflexivity. destruct c; reflexivity.
  - split; [| reflexivity]. simpl. rewrite fold_left_app.
    rewrite (receive_execs (entries hook) _ []) by reflexivity. destruct c; reflexivity.
  - split; [| reflexivity]. now rewrite receive_flushed.
Qed.

(** ** A batch size that is not positive *)

(** C9, as the code has it. The batch size is not checked.  For every
    [B <= 0]: when the store accepts [sql.Open] and [Ping],
    [NewClickHouseHook] returns a hook with that batch size and an empty
    buffer; on such a hook every [Fire], whatever the store answers, runs
    [flush] at once on the whole buffer, the new entry included.  A [Fire]
    that returns no error has committed that buffer as one batch and left
    the buffer empty; a [Fire] that returns an error keeps the buffer with
    the new entry, to be flushed again by the next [Fire].  So in a run
    from the empty buffer in which every [Fire] returns no error, as on a
    store that accepts every call, each record is flushed alone: one
    transaction per record, holding this single record. *)
Theorem nonpositive_batch_size_flushes_every_append :
  forall store B,
    B <= 0 ->
    (forall d h,
        store h (SqlOpen "clickhouse" d) = None ->
        store (h ++ [ok (SqlOpen "clickhouse" d)]) DbPing = None ->
        result (NewClickHouseHook store d B) h
        = Returned (Some {| db := mkDB "clickhouse" d; entries := []; batchSize := B |},
                    None)) /\
    (forall hook entry h,
        batchSize hook = B ->
        Fire store hook entry h = flush store (appended hook entry) h /\
        flushes (issued (Fire store hook entry) h) = 1%nat) /\
    (forall hook entry h,
        batchSize hook = B ->
        fst (result (Fire store hook entry) h) = None ->
        (exists c, issued (Fire store hook entry) h = flushed (entries hook ++ [entry]) c) /\
        batches (issued (Fire store hook entry) h) = [map row (entries hook ++ [entry])] /\
        entries (snd (result (Fire store hook entry) h)) = []) /\
    (forall hook entry h,
        batchSize hook = B ->
        fst (result (Fire store hook entry) h) <> None ->
        batches (issued (Fire store hook entry) h) = [] /\
        entries (snd (result (Fire store hook entry) h)) = entries hook ++ [entry]) /\
    (forall es hook h,
        batchSize hook = B -> entries hook = [] ->
        Forall (fun r => r = None) (fst (result (Fire_all store hook es) h)) ->
        flushes (issued (Fire_all store hook es) h) = List.length es /\
        batches (issued (Fire_all store hook es) h) = map (fun entry => [row entry]) es /\
        entries (snd (result (Fire_all store hook es) h)) = []) /\
    (accepts_all store ->
     forall es hook h,
       Forall (fun r => r = None) (fst (result (Fire_all store hook es) h))).
Proof.
  intros store B HB.
  assert (Always : forall hook entry h,
             batchSize hook = B ->
             Fire store hook entry h = flush store (appended hook entry) h).
  { intros hook entry h Hsize. apply Fire_flush.
    pose proof (len_nonneg (entries hook)). lia. }
  split; [| split; [| split; [| split; [| split]]]].
  - intros d h HO HP. rewrite NewClickHouseHook_cases, HO, HP. reflexivity.
  - intros hook entry h Hsize. split; [now apply Always |].
    unfold issued. rewrite (Always hook entry h Hsize).
    fold (issued (flush store (appended hook entry)) h).
    flush_cases store (appended hook entry) h; rewrite Ht; try reflexivity;
      try apply flushes_flushed;
      unfold flushes; cbn [filter fst ok is_begin]; rewrite filter_app, filter_execs_begin;
      reflexivity.
  - intros hook entry h Hsize E.
    unfold result, issued in *. rewrite (Always hook entry h Hsize) in *.
    fold (result (flush store (appended hook entry)) h) in *.
    fold (issued (flush store (appended hook entry)) h).
    pose proof (flush_atomic store (appended hook entry) h
                  {| committed := []; pending := None |}) as A.
    rewrite E in A. destruct A as [A1 A2].
    destruct (flush_success store _ h E) as (_ & c & Ht).
    split; [exists c; exact Ht |].
    split; [exact A1 | now rewrite A2].
  - intros hook entry h Hsize E.
    unfold result, issued in *. rewrite (Always hook entry h Hsize) in *.
    fold (result (flush store (appended hook entry)) h) in *.
    fold (issued (flush store (appended hook entry)) h).
    pose proof (flush_atomic store (appended hook entry) h
                  {| committed := []; pending := None |}) as A.
    destruct (fst (result (flush store (appended hook entry)) h)) as [err|];
      [| contradiction].
    destruct A as [A1 A2]. split; [exact A1 | now rewrite A2].
  - intros es hook h Hsize Hempty HF.
    pose proof (batches_of_run store B es hook h Hsize HF) as HBt.
    destruct (Fire_all_success store B es hook h Hsize HF) as (_ & Hfin & _ & Hfl & _).
    rewrite Hempty, (batching_nonpositive B es HB) in *. simpl in *.
    split; [now rewrite Hfl, length_map |].
    split; [| exact Hfin].
    rewrite HBt, map_map. reflexivity.
  - intros A es hook h. apply Fire_all_accepted. exact A.
Qed.

Lemma nonpositive_batch_size_example :
  result (NewClickHouseHook accepts_everything dsn (-3)) []
  = Returned (Some (fresh (-3)), None) /\
  batches (issued (Fire_all accepts_everything (fresh (-3)) [record 0; record 1; record 2]) [])
  = [[row (record 0)]; [row (record 1)]; [row (record 2)]] /\
  entries (snd (result (Fire refuses_begin (fresh (-3)) (record 0)) [])) = [record 0].
Proof.
  destruct (nonpositive_batch_size_flushes_every_append accepts_everything (-3))
    as (H1 & _ & _ & _ & H5 & _); [lia |].
  destruct (nonpositive_batch_size_flushes_every_append refuses_begin (-3))
    as (_ & _ & _ & H4 & _); [lia |].
  split; [| split].
  - apply (H1 dsn []); reflexivity.
  - apply (H5 [record 0; record 1; record 2] (fresh (-3)) []);
      [reflexivity | reflexivity | vm_compute; repeat constructor].
  - apply (H4 (fresh (-3)) (record 0) []); [reflexivity | discriminate].
Defined.

(** C9 as stated fails. The store accepts [sql.Open] and [Ping], so
    construction with batch size 0 succeeds, and it refuses the first
    [Begin] only.  The first [Fire] returns the error and keeps its record;
    the second [Fire] flushes two records in one transaction, not the
    single record just appended. *)
Lemma second_append_flushes_two_records :
  result (NewClickHouseHook refuses_first_begin dsn 0) []
  = Returned (Some (fresh 0), None) /\
  result (Fire refuses_first_begin (fresh 0) (record 0)) []
  = (Some (OtherError "driver: bad connection"), set_entries (fresh 0) [record 0]) /\
  map fst (issued (Fire refuses_first_begin (set_entries (fresh 0) [record 0]) (record 1))
             [(DbBegin, Some (OtherError "driver: bad connection"))])
  = [DbBegin; TxPrepare insertQuery; StmtExec (row (record 0));
     StmtExec (row (record 1)); TxCommit; StmtClose] /\
  batches (issued (Fire_all refuses_first_begin (fresh 0) [record 0; record 1]) [])
  = [[row (record 0); row (record 1)]].
Proof. repeat split; reflexivity. Qed.

(** ** Release of the connection *)

Lemma closes_app t1 t2 : closes (t1 ++ t2) = closes t1 || closes t2.
Proof. unfold closes. apply existsb_app. Qed.

Lemma closes_execs es : closes (execs es) = false.
Proof. induction es; simpl; auto. Qed.

Lemma flush_never_closes store hook h : closes (issued (flush store hook) h) = false.
Proof.
  flush_cases store hook h; rewrite Ht; unfold flushed; try reflexivity;
    match goal with
    | |- closes (?a :: ?b :: ?l ++ ?m) = _ =>
        change (a :: b :: l ++ m) with ([a; b] ++ l ++ m)
    end;
    rewrite !closes_app, closes_execs; reflexivity.
Qed.

Lemma Fire_trace store hook entry h :
  snd (Fire store hook entry h) = h ++ issued (Fire store hook entry) h /\
  closes (issued (Fire store hook entry) h) = false.
Proof.
  destruct (Z_lt_le_dec (len (entries hook) + 1) (batchSize hook)) as [L | L].
  - unfold issued. rewrite (Fire_below store hook entry h L). simpl.
    rewrite skipn_all, app_nil_r. auto.
  - unfold issued. rewrite (Fire_flush store hook entry h L).
    split; [apply flush_trace | apply flush_never_closes].
Qed.

Lemma log_loop_trace store clock iterations :
  forall hook h,
    snd (log_loop store clock iterations hook h)
    = h ++ issued (log_loop store clock iterations hook) h /\
    closes (issued (log_loop store clock iterations hook) h) = false.
Proof.
  induction iterations as [|i rest IH]; intros hook h.
  - unfold issued. simpl. rewrite skipn_all, app_nil_r. auto.
  - assert (E : snd (log_loop store clock (i :: rest) hook h)
                = h ++ issued (Fire store hook (info_entry clock i)) h
                    ++ issued (log_loop store clock rest
                                 (snd (result (Fire store hook (info_entry clock i)) h)))
                         (snd (Fire store hook (info_entry clock i) h))).
    { simpl. unfold bind, result.
      destruct (Fire_trace store hook (info_entry clock i) h) as [T _].
      destruct (Fire store hook (info_entry clock i) h) as [res h1] eqn:EF.
      simpl in *. destruct (IH (snd res) h1) as [T' _].
      rewrite T'. rewrite T at 1. now rewrite <- app_assoc. }
    rewrite (issued_app _ _ _ E). split; [exact E |].
    rewrite closes_app.
    destruct (Fire_trace store hook (info_entry clock i) h) as [_ ->].
    destruct (IH (snd (result (Fire store hook (info_entry clock i)) h))
                 (snd (Fire store hook (info_entry clock i) h))) as [_ ->].
    reflexivity.
Qed.

Lemma NewClickHouseHook_trace store d B h :
  snd (NewClickHouseHook store d B h) = h ++ issued (NewClickHouseHook store d B) h /\
  closes (issued (NewClickHouseHook store d B) h) = false.
Proof.
  assert (E : exists t, snd (NewClickHouseHook store d B h) = h ++ t /\ closes t = false).
  { unfold NewClickHouseHook, bind, call. cbv zeta.
    destruct (store h (SqlOpen "clickhouse" d)) as [e1|].
    - eexists. split; reflexivity.
    - destruct (store (h ++ [(SqlOpen "clickhouse" d, None)]) DbPing)
        as [[code msg stack|text]|]; simpl; rewrite <- app_assoc;
        eexists; split; reflexivity. }
  destruct E as (t & E & C). rewrite (issued_app _ _ _ E). auto.
Qed.

(** On every run of [main], [db.Close] is called exactly when [main]
    returns; on the paths that end in [log.Fatal] or [log.Fatalf] it is
    not. *)
Lemma main_closes_only_when_it_returns store clock h :
  closes (issued (main store clock) h) = true <->
  result (main store clock) h = Returned tt.
Proof.
  assert (E : exists t, snd (main store clock h) = h ++ t /\
                        (closes t = true <-> fst (main store clock h) = Returned tt)).
  { unfold main, bind. generalize (seq 0 10). intros its.
    destruct (NewClickHouseHook_trace store dsn 5 h) as [T0 C0].
    destruct (NewClickHouseHook store dsn 5 h) as [r h0]. cbn [fst snd] in T0.
    set (t0 := issued (NewClickHouseHook store dsn 5) h) in *. clearbody t0. subst h0.
    assert (No : forall (o : Outcome unit), o <> Returned tt ->
                   exists t, snd (ret o (h ++ t0)) = h ++ t /\
                             (closes t = true <-> fst (ret o (h ++ t0)) = Returned tt)).
    { intros o Ho. exists t0. split; [reflexivity |]. cbn [ret fst]. rewrite C0.
      split; [discriminate | intros; contradiction]. }
    destruct r as [[[hook|] [err|]] | status diag |]; try (apply No; discriminate).
    destruct (log_loop_trace store clock its hook (h ++ t0)) as [T1 C1].
    destruct (log_loop store clock its hook (h ++ t0)) as [hook1 h1].
    cbn [fst snd] in T1.
    set (t1 := issued (log_loop store clock its hook) (h ++ t0)) in *.
    clearbody t1. subst h1.
    pose proof (flush_trace store hook1 ((h ++ t0) ++ t1)) as T2.
    pose proof (flush_never_closes store hook1 ((h ++ t0) ++ t1)) as C2.
    destruct (flush store hook1 ((h ++ t0) ++ t1)) as [res h2]. cbn [fst snd] in T2.
    set (t2 := issued (flush store hook1) ((h ++ t0) ++ t1)) in *.
    clearbody t2. subst h2. cbn [fst].
    destruct (fst res) as [err|].
    - exists (t0 ++ t1 ++ t2). split; [cbn [ret snd]; now rewrite <- !app_assoc |].
      rewrite !closes_app, C0, C1, C2. cbn [ret fst orb]. split; discriminate.
    - unfold call, ret. cbv zeta. cbn [fst snd].
      eexists (t0 ++ t1 ++ t2 ++ [(DbClose, _)]).
      split; [now rewrite <- !app_assoc |].
      rewrite !closes_app, C0, C1, C2. simpl. split; reflexivity. }
  destruct E as (t & E & I). rewrite (issued_app _ _ _ E). exact I.
Qed.

(** C8. The connection is released on the path where [main] returns, and
    only there.  With a store that accepts everything up to the final
    flush and refuses its [Begin], [main] ends in [log.Fatalf]: the process
    exits with status 1 and the deferred [hook.db.Close()] is never
    called, although the connection was opened.  The same holds when
    [Ping] fails inside [NewClickHouseHook].  On the run where every call
    is accepted, [db.Close] is the last call. *)
Theorem final_flush_failure_skips_close :
  result (main refuses_third_begin demo_clock) []
  = Exited 1 (Fatalf "failed to flush logs to ClickHouse: "
                (OtherError "driver: bad connection")) /\
  In (ok (SqlOpen "clickhouse" dsn)) (issued (main refuses_third_begin demo_clock) []) /\
  flushes (issued (main refuses_third_begin demo_clock) []) = 3%nat /\
  closes (issued (main refuses_third_begin demo_clock) []) = false /\
  closes (issued (main unreachable demo_clock) []) = false /\
  result (main accepts_everything demo_clock) [] = Returned tt /\
  last (issued (main accepts_everything demo_clock) []) (ok DbPing) = ok DbClose.
Proof.
  split; [reflexivity |].
  split; [left; reflexivity |].
  split; [reflexivity |].
  split; [reflexivity |].
  split; [reflexivity |].
  split; reflexivity.
Qed.

(** ** Two runs with a failing store *)

(** A refused insert cuts the transaction: the statement is closed, no
    commit is issued, both records stay buffered. *)
Example insert_failure_cuts_the_transaction :
  map fst (issued (flush refuses_second_insert
                     (set_entries (fresh 5) [record 0; record 1; record 2])) [])
  = [DbBegin; TxPrepare insertQuery; StmtExec (row (record 0));
     StmtExec (row (record 1)); StmtClose] /\
  result (flush refuses_second_insert
            (set_entries (fresh 5) [record 0; record 1; record 2])) []
  = (Some (OtherError "insert failed"),
     set_entries (fresh 5) [record 0; record 1; record 2]).
Proof. split; reflexivity. Qed.

(** After a failed flush the records kept in the buffer are sent again by
    the next flush, together with the record appended since. *)
Example kept_records_are_flushed_again :
  fst (result (Fire_all refuses_first_begin (fresh 0) [record 0; record 1]) [])
  = [Some (OtherError "driver: bad connection"); None] /\
  batches (issued (Fire_all refuses_first_begin (fresh 0) [record 0; record 1]) [])
  = [[row (record 0); row (record 1)]].
Proof. split; reflexivity. Qed.

(** ** All or nothing *)

(** A [flush] is all or nothing at the store, whatever the store answers:
    when it returns no error, exactly one batch has been committed, the
    whole buffer in buffer order, and the buffer is empty; when it returns
    an error, nothing has been committed and the hook is untouched. *)
Theorem flush_commits_all_or_nothing :
  forall store hook h,
    match fst (result (flush store hook) h) with
    | None =>
        batches (issued (flush store hook) h) = [map row (entries hook)] /\
        entries (snd (result (flush store hook) h)) = []
    | Some _ =>
        batches (issued (flush store hook) h) = [] /\
        snd (result (flush store hook) h) = hook
    end.
Proof.
  intros store hook h. unfold batches.
  pose proof (flush_atomic store hook h {| committed := []; pending := None |}) as A.
  destruct (fst (result (flush store hook) h)) as [err|]; destruct A as [-> ->];
    split; reflexivity.
Qed.

(** ** Nothing lost, nothing sent twice *)

Lemma Fire_all_trace store es :
  forall hook h,
    snd (Fire_all store hook es h) = h ++ issued (Fire_all store hook es) h.
Proof.
  induction es as [|entry rest IH]; intros hook h.
  - unfold issued. simpl. now rewrite skipn_all, app_nil_r.
  - assert (E : snd (Fire_all store hook (entry :: rest) h)
                = h ++ issued (Fire store hook entry) h
                    ++ issued (Fire_all store (snd (result (Fire store hook entry) h)) rest)
                         (snd (Fire store hook entry h))).
    { rewrite Fire_all_trace_cons, IH.
      destruct (Fire_trace store hook entry h) as [T _].
      rewrite T at 1. now rewrite <- app_assoc. }
    now rewrite (issued_app _ _ _ E).
Qed.

Lemma Fire_all_issued_cons store hook entry rest h :
  issued (Fire_all store hook (entry :: rest)) h
  = issued (Fire store hook entry) h
    ++ issued (Fire_all store (snd (result (Fire store hook entry) h)) rest)
         (snd (Fire store hook entry h)).
Proof.
  apply issued_app. rewrite Fire_all_trace_cons, Fire_all_trace.
  destruct (Fire_trace store hook entry h) as [T _].
  rewrite T at 1. now rewrite <- app_assoc.
Qed.

(** One [Fire] keeps the records: what is committed followed by what is
    buffered grows by exactly the new record, at the end. *)
Lemma Fire_keeps_records store hook entry h s :
  List.concat (committed (fold_left receive (issued (Fire store hook entry) h) s))
  ++ map row (entries (snd (result (Fire store hook entry) h)))
  = List.concat (committed s) ++ map row (entries hook ++ [entry]) /\
  batchSize (snd (result (Fire store hook entry) h)) = batchSize hook /\
  db (snd (result (Fire store hook entry) h)) = db hook.
Proof.
  destruct (Z_lt_le_dec (len (entries hook) + 1) (batchSize hook)) as [L | L].
  - unfold issued, result. rewrite (Fire_below store hook entry h L). simpl.
    rewrite skipn_all. simpl. auto.
  - unfold issued, result. rewrite (Fire_flush store hook entry h L).
    fold (result (flush store (appended hook entry)) h).
    fold (issued (flush store (appended hook entry)) h).
    pose proof (flush_atomic store (appended hook entry) h s) as A.
    destruct (fst (result (flush store (appended hook entry)) h)) as [err|];
      destruct A as [-> ->]; simpl; [auto |].
    rewrite concat_app. simpl. rewrite !app_nil_r. auto.
Qed.

Lemma Fire_all_keeps_records store es :
  forall hook h s,
    List.concat (committed (fold_left receive (issued (Fire_all store hook es) h) s))
    ++ map row (entries (snd (result (Fire_all store hook es) h)))
    = List.concat (committed s) ++ map row (entries hook ++ es) /\
    batchSize (snd (result (Fire_all store hook es) h)) = batchSize hook /\
    db (snd (result (Fire_all store hook es) h)) = db hook.
Proof.
  induction es as [|entry rest IH]; intros hook h s.
  - unfold issued, result. simpl. rewrite skipn_all, app_nil_r. simpl. auto.
  - rewrite Fire_all_issued_cons, Fire_all_result_cons, fold_left_app. cbn [fst snd].
    destruct (Fire_keeps_records store hook entry h s) as (K & KB & KD).
    destruct (IH (snd (result (Fire store hook entry) h))
                 (snd (Fire store hook entry h))
                 (fold_left receive (issued (Fire store hook entry) h) s))
      as (R & RB & RD).
    rewrite R, RB, RD, KB, KD. split; [| auto].
    rewrite (map_app row _ rest), app_assoc, K.
    rewrite <- app_assoc, <- map_app, <- app_assoc. reflexivity.
Qed.

(** Whatever the store answers and whatever the batch size, a run of
    appends loses no record and sends none twice: the rows of the committed
    batches, in commit order, followed by the rows of the buffer are the
    rows of the records buffered at the start followed by those appended,
    in that order.  The batch size and the connection handle of the hook
    never change. *)
Theorem appends_keep_every_record_in_order :
  forall store hook es h,
    List.concat (batches (issued (Fire_all store hook es) h))
    ++ map row (entries (snd (result (Fire_all store hook es) h)))
    = map row (entries hook ++ es) /\
    batchSize (snd (result (Fire_all store hook es) h)) = batchSize hook /\
    db (snd (result (Fire_all store hook es) h)) = db hook.
Proof.
  intros store hook es h. unfold batches.
  apply (Fire_all_keeps_records store es hook h {| committed := []; pending := None |}).
Qed.

(** After any run of appends, failed flushes included, a final [flush]
    that succeeds leaves the store with every record exactly once, in
    append order, and the buffer empty. *)
Theorem successful_final_flush_delivers_everything :
  forall store hook es h,
    fst (result (flush store (snd (result (Fire_all store hook es) h)))
                (h ++ issued (Fire_all store hook es) h)) = None ->
    List.concat (batches (issued (Fire_all store hook es) h
                          ++ issued (flush store (snd (result (Fire_all store hook es) h)))
                               (h ++ issued (Fire_all store hook es) h)))
    = map row (entries hook ++ es) /\
    entries (snd (result (flush store (snd (result (Fire_all store hook es) h)))
                    (h ++ issued (Fire_all store hook es) h))) = [].
Proof.
  intros store hook es h E.
  set (t := issued (Fire_all store hook es) h) in *.
  set (final := snd (result (Fire_all store hook es) h)) in *.
  unfold batches. rewrite fold_left_app.
  pose proof (flush_atomic store final (h ++ t)
                (fold_left receive t {| committed := []; pending := None |})) as A.
  rewrite E in A. destruct A as [-> ->].
  destruct (Fire_all_keeps_records store es hook h {| committed := []; pending := None |})
    as (K & _).
  fold t final in K. simpl in K.
  rewrite concat_app. simpl. rewrite app_nil_r. auto.
Qed.

Lemma final_flush_after_a_failure :
  List.concat
    (batches (issued (Fire_all refuses_first_begin (fresh 2) [record 0; record 1; record 2]) []
              ++ issued (flush refuses_first_begin
                           (snd (result (Fire_all refuses_first_begin (fresh 2)
                                           [record 0; record 1; record 2]) [])))
                   ([] ++ issued (Fire_all refuses_first_begin (fresh 2)
                                    [record 0; record 1; record 2]) [])))
  = map row ([] ++ [record 0; record 1; record 2]) /\
  fst (result (Fire_all refuses_first_begin (fresh 2) [record 0; record 1; record 2]) [])
  = [None; Some (OtherError "driver: bad connection"); None].
Proof.
  split.
  - apply (successful_final_flush_delivers_everything refuses_first_begin (fresh 2)
             [record 0; record 1; record 2] []).
    reflexivity.
  - reflexivity.
Defined.

(** ** The driver *)

Lemma log_loop_Fire_all store clock iterations :
  forall hook h,
    log_loop store clock iterations hook h
    = (snd (result (Fire_all store hook (map (info_entry clock) iterations)) h),
       snd (Fire_all store hook (map (info_entry clock) iterations) h)).
Proof.
  induction iterations as [|i rest IH]; intros hook h; [reflexivity |].
  cbn [map]. unfold result. rewrite Fire_all_cons. cbn [log_loop fst snd].
  unfold bind, result. destruct (Fire store hook (info_entry clock i) h) as [res h1].
  cbn [fst snd]. rewrite IH. reflexivity.
Qed.

Lemma NewClickHouseHook_receives_nothing store d B h s :
  fold_left receive (issued (NewClickHouseHook store d B) h) s = s.
Proof.
  assert (E : exists t, snd (NewClickHouseHook store d B h) = h ++ t /\
                        fold_left receive t s = s).
  { unfold NewClickHouseHook, bind, call. cbv zeta.
    destruct (store h (SqlOpen "clickhouse" d)) as [e1|].
    - eexists. split; reflexivity.
    - destruct (store (h ++ [(SqlOpen "clickhouse" d, None)]) DbPing)
        as [[code msg stack|text]|]; simpl; rewrite <- app_assoc;
        eexists; split; reflexivity. }
  destruct E as (t & E & C). now rewrite (issued_app _ _ _ E).
Qed.

Lemma NewClickHouseHook_hook store d B h hook e :
  result (NewClickHouseHook store d B) h = Returned (Some hook, e) ->
  hook = {| db := mkDB "clickhouse" d; entries := []; batchSize := B |}.
Proof.
  rewrite NewClickHouseHook_cases.
  destruct (store h (SqlOpen "clickhouse" d)) as [e1|]; [discriminate |].
  destruct (store (h ++ [ok (SqlOpen "clickhouse" d)]) DbPing)
    as [[code msg stack|text]|]; try discriminate.
  intros E. now inversion E.
Qed.

(** Whenever [main] returns, whatever the store answered on the way, the
    store holds the ten entries of the loop exactly once, in the order
    they were logged: entries whose flush failed inside the loop were kept
    and sent again. *)
Theorem main_delivers_every_entry_once :
  forall store clock h,
    result (main store clock) h = Returned tt ->
    List.concat (batches (issued (main store clock) h))
    = map (fun i => row (info_entry clock i)) (seq 0 10).
Proof.
  intros store clock h.
  assert (E : exists t,
             snd (main store clock h) = h ++ t /\
             (fst (main store clock h) = Returned tt ->
              List.concat (batches t)
              = map (fun i => row (info_entry clock i)) (seq 0 10))).
  { unfold main, bind. generalize (seq 0 10). intros its.
    destruct (NewClickHouseHook_trace store dsn 5 h) as [T0 _].
    pose proof (NewClickHouseHook_receives_nothing store dsn 5 h) as N0.
    pose proof (NewClickHouseHook_hook store dsn 5 h) as H0. unfold result in H0.
    destruct (NewClickHouseHook store dsn 5 h) as [r h0]. cbn [fst snd] in T0, H0.
    set (t0 := issued (NewClickHouseHook store dsn 5) h) in *. clearbody t0. subst h0.
    assert (No : forall (o : Outcome unit), o <> Returned tt ->
                   exists t, snd (ret o (h ++ t0)) = h ++ t /\
                             (fst (ret o (h ++ t0)) = Returned tt ->
                              List.concat (batches t)
                              = map (fun i => row (info_entry clock i)) its)).
    { intros o Ho. exists t0. split; [reflexivity |]. cbn [ret fst].
      intros; contradiction. }
    destruct r as [[[hook|] [err|]] | status diag |]; try (apply No; discriminate).
    specialize (H0 hook None eq_refl).
    rewrite log_loop_Fire_all.
    pose proof (Fire_all_trace store (map (info_entry clock) its) hook (h ++ t0)) as T1.
    destruct (Fire_all_keeps_records store (map (info_entry clock) its) hook (h ++ t0)
                {| committed := []; pending := None |}) as (K & _).
    set (t1 := issued (Fire_all store hook (map (info_entry clock) its)) (h ++ t0)) in *.
    set (hook1 := snd (result (Fire_all store hook (map (info_entry clock) its))
                         (h ++ t0))) in *.
    rewrite T1.
    pose proof (flush_trace store hook1 ((h ++ t0) ++ t1)) as T2.
    pose proof (flush_atomic store hook1 ((h ++ t0) ++ t1)
                  (fold_left receive t1 {| committed := []; pending := None |})) as A.
    unfold result in A.
    set (t2 := issued (flush store hook1) ((h ++ t0) ++ t1)) in *.
    destruct (flush store hook1 ((h ++ t0) ++ t1)) as [res h2]. cbn [fst snd] in T2, A |- *.
    subst h2.
    destruct (fst res) as [err|].
    - exists (t0 ++ t1 ++ t2). split; [cbn [ret snd]; now rewrite <- !app_assoc |].
      cbn [ret fst]. discriminate.
    - unfold call, ret. cbv zeta. cbn [fst snd].
      eexists (t0 ++ t1 ++ t2 ++ [(DbClose, _)]).
      split; [now rewrite <- !app_assoc |].
      intros _. destruct A as [A _]. unfold batches.
      rewrite !fold_left_app, N0. rewrite H0 in K. simpl in K.
      match goal with
      | |- context [fold_left receive [(DbClose, ?r)] ?s] =>
          replace (fold_left receive [(DbClose, r)] s) with s
            by (simpl; destruct r; reflexivity)
      end.
      rewrite A, concat_app. simpl. rewrite app_nil_r, K, map_map. reflexivity. }
  destruct E as (t & E & I). unfold result. rewrite (issued_app _ _ _ E). exact I.
Qed.

Lemma main_delivers_after_a_failure :
  fst (result (Fire_all refuses_first_begin (fresh 5)
                 (map (info_entry demo_clock) (seq 0 10))) [])
  = [None; None; None; None; Some (OtherError "driver: bad connection");
     None; None; None; None; None] /\
  List.concat (batches (issued (main refuses_first_begin demo_clock) []))
  = map (fun i => row (info_entry demo_clock i)) (seq 0 10).
Proof.
  split; [reflexivity |].
  apply (main_delivers_every_entry_once refuses_first_begin demo_clock []).
  reflexivity.
Defined.

(** [NewClickHouseHook] hands back a hook exactly when it hands back no
    error; so [main], which looks at the error only, never uses a nil
    hook: it does not panic, and when it does not return it exits with
    status 1. *)
Theorem main_never_panics :
  forall store clock h,
    (forall d B,
        match result (NewClickHouseHook store d B) h with
        | Returned (Some _, None) | Returned (None, Some _) | Exited 1 _ => True
        | _ => False
        end) /\
    (result (main store clock) h = Returned tt \/
     exists diag, result (main store clock) h = Exited 1 diag).
Proof.
  intros store clock h. split.
  - intros d B. rewrite NewClickHouseHook_cases.
    destruct (store h (SqlOpen "clickhouse" d)) as [e1|]; [exact I |].
    destruct (store (h ++ [ok (SqlOpen "clickhouse" d)]) DbPing)
      as [[code msg stack|text]|]; exact I.
  - unfold result, main, bind.
    pose proof (NewClickHouseHook_cases store dsn 5 h) as Cs. unfold result in Cs.
    destruct (NewClickHouseHook store dsn 5 h) as [r h0]. cbn [fst] in Cs.
    assert (Shape : match r with
                    | Returned (Some _, None) | Returned (None, Some _) | Exited 1 _ => True
                    | _ => False
                    end).
    { rewrite Cs.
      destruct (store h (SqlOpen "clickhouse" dsn)) as [e1|]; [exact I |].
      destruct (store (h ++ [ok (SqlOpen "clickhouse" dsn)]) DbPing)
        as [[code msg stack|text]|]; exact I. }
    destruct r as [[[hook|] [err|]] | status diag |]; try contradiction.
    + destruct (log_loop store clock (seq 0 10) hook h0) as [hook1 h1].
      destruct (flush store hook1 h1) as [res h2]. cbn [fst].
      destruct (fst res) as [err|].
      * right. eexists. reflexivity.
      * left. reflexivity.
    + right. eexists. reflexivity.
    + right. destruct status as [|[p|p|]|]; try contradiction. eexists. reflexivity.
Qed.

(** On a store that accepts every call the functions make the calls they
    make on [accepts_everything], with the same answers. *)
Section AcceptingRuns.

Variable store : Store.
Hypothesis accepting : accepts_all store.

Lemma call_accepting c h : call store c h = call accepts_everything c h.
Proof. unfold call. now rewrite accepting. Qed.

Lemma exec_entries_accepting es :
  forall h, exec_entries store es h = exec_entries accepts_everything es h.
Proof.
  induction es as [|entry rest IH]; intros h; [reflexivity |].
  simpl. unfold bind. rewrite call_accepting.
  destruct (call accepts_everything (StmtExec (row entry)) h) as [[err|] h1];
    [reflexivity | apply IH].
Qed.

Lemma flush_accepting hook h : flush store hook h = flush accepts_everything hook h.
Proof.
  unfold flush, bind. rewrite call_accepting.
  destruct (call accepts_everything DbBegin h) as [[err|] h1]; [reflexivity |].
  rewrite call_accepting.
  destruct (call accepts_everything (TxPrepare insertQuery) h1) as [[err|] h2];
    [reflexivity |].
  unfold flush_prepared, bind. rewrite exec_entries_accepting.
  destruct (exec_entries accepts_everything (entries hook) h2) as [[err|] h3].
  - unfold ret. cbv beta iota. now rewrite call_accepting.
  - rewrite call_accepting.
    destruct (call accepts_everything TxCommit h3) as [[err|] h4];
      unfold ret; cbv beta iota; now rewrite call_accepting.
Qed.

Lemma Fire_accepting hook entry h :
  Fire store hook entry h = Fire accepts_everything hook entry h.
Proof.
  unfold Fire. destruct (len (entries (appended hook entry)) >=? batchSize (appended hook entry));
    [| reflexivity].
  unfold bind. now rewrite flush_accepting.
Qed.

Lemma log_loop_accepting clock iterations :
  forall hook h,
    log_loop store clock iterations hook h
    = log_loop accepts_everything clock iterations hook h.
Proof.
  induction iterations as [|i rest IH]; intros hook h; [reflexivity |].
  simpl. unfold bind. rewrite Fire_accepting.
  destruct (Fire accepts_everything hook (info_entry clock i) h) as [res h1]. apply IH.
Qed.

Lemma main_accepting clock h :
  main store clock h = main accepts_everything clock h.
Proof.
  unfold main, NewClickHouseHook, bind. rewrite call_accepting.
  destruct (call accepts_everything (SqlOpen "clickhouse" dsn) h) as [[err|] h1];
    [reflexivity |].
  rewrite call_accepting.
  destruct (call accepts_everything DbPing h1) as [[[code msg stack|text]|] h2];
    try reflexivity.
  unfold ret. cbv beta iota. rewrite log_loop_accepting.
  destruct (log_loop accepts_everything clock (seq 0 10) _ h2) as [hook1 h3].
  rewrite flush_accepting.
  destruct (flush accepts_everything hook1 h3) as [res h4].
  destruct (fst res); [reflexivity |]. now rewrite call_accepting.
Qed.

End AcceptingRuns.

(** On every store that accepts every call, and for every clock, [main]
    sends the ten entries in two transactions of five, in logging order,
    then a third, empty transaction (the final flush finds the buffer
    empty and is not skipped), closes the connection last and returns. *)
Theorem main_on_an_accepting_store :
  forall store clock,
    accepts_all store ->
    result (main store clock) [] = Returned tt /\
    batches (issued (main store clock) [])
    = [map (fun i => row (info_entry clock i)) [0; 1; 2; 3; 4]%nat;
       map (fun i => row (info_entry clock i)) [5; 6; 7; 8; 9]%nat;
       []] /\
    inserts (issued (main store clock) []) = 10%nat /\
    last (issued (main store clock) []) (ok DbPing) = ok DbClose.
Proof.
  intros store clock A. unfold result, issued.
  rewrite (main_accepting store A clock []).
  repeat split; reflexivity.
Qed.

Lemma main_on_an_accepting_store_example :
  result (main accepts_everything demo_clock) [] = Returned tt /\
  inserts (issued (main accepts_everything demo_clock) []) = 10%nat.
Proof.
  destruct (main_on_an_accepting_store accepts_everything demo_clock (fun _ _ => eq_refl))
    as (H1 & _ & H3 & _).
  split; [exact H1 | exact H3].
Defined.

(** ** The prepared statement and the cost of a flush *)

Lemma statement_closes_execs es : statement_closes (execs es) = 0%nat.
Proof. unfold statement_closes. induction es; simpl; auto. Qed.

Lemma statement_closes_app t1 t2 :
  statement_closes (t1 ++ t2) = (statement_closes t1 + statement_closes t2)%nat.
Proof. unfold statement_closes. now rewrite filter_app, length_app. Qed.

Lemma length_execs es : List.length (execs es) = List.length es.
Proof. unfold execs. apply length_map. Qed.

Lemma last_after_two {A : Type} (a b x y d : A) (l : list A) :
  last (a :: b :: l ++ [x; y]) d = y.
Proof.
  rewrite !app_comm_cons. change [x; y] with ([x] ++ [y]).
  rewrite app_assoc. apply last_last.
Qed.

(** The deferred [stmt.Close] runs on every path of [flush] that follows
    an accepted [Prepare], the failing ones included, exactly once and as
    the last call; when [Prepare] was not accepted, no statement exists and
    none is closed. *)
Theorem statement_closed_whenever_prepared :
  forall store hook h,
    (In (ok (TxPrepare insertQuery)) (issued (flush store hook) h) ->
     statement_closes (issued (flush store hook) h) = 1%nat /\
     exists c, last (issued (flush store hook) h) (ok DbBegin) = (StmtClose, c)) /\
    (~ In (ok (TxPrepare insertQuery)) (issued (flush store hook) h) ->
     statement_closes (issued (flush store hook) h) = 0%nat /\
     fst (result (flush store hook) h) <> None).
Proof.
  intros store hook h.
  flush_cases store hook h; rewrite Hr, Ht; unfold flushed.
  - split; [intros I; unfold ok in I; in_trace | intros _; split; [reflexivity | discriminate]].
  - split; [intros I; unfold ok in I; in_trace | intros _; split; [reflexivity | discriminate]].
  - split; [intros _ | intros N; exfalso; apply N; right; now left].
    split.
    + change (statement_closes ([ok DbBegin; ok (TxPrepare insertQuery)]
                                ++ execs done
                                ++ [(StmtExec (row entry), Some e); (StmtClose, c)]) = 1%nat).
      rewrite !statement_closes_app, statement_closes_execs. reflexivity.
    + exists c. apply last_after_two.
  - split; [intros _ | intros N; exfalso; apply N; right; now left].
    split.
    + change (statement_closes ([ok DbBegin; ok (TxPrepare insertQuery)]
                                ++ execs (entries hook)
                                ++ [(TxCommit, Some e); (StmtClose, c)]) = 1%nat).
      rewrite !statement_closes_app, statement_closes_execs. reflexivity.
    + exists c. apply last_after_two.
  - split; [intros _ | intros N; exfalso; apply N; right; now left].
    split.
    + change (statement_closes ([ok DbBegin; ok (TxPrepare insertQuery)]
                                ++ execs (entries hook)
                                ++ [ok TxCommit; (StmtClose, c)]) = 1%nat).
      rewrite !statement_closes_app, statement_closes_execs. reflexivity.
    + exists c. apply last_after_two.
Qed.

(** A [flush] over [n] buffered entries makes at most [n + 4] calls on the
    store, among them at most [n] inserts and exactly one [Begin]; when it
    succeeds it has made exactly [n + 4] calls and [n] inserts. *)
Theorem flush_call_count :
  forall store hook h,
    (List.length (issued (flush store hook) h) <= List.length (entries hook) + 4)%nat /\
    (inserts (issued (flush store hook) h) <= List.length (entries hook))%nat /\
    flushes (issued (flush store hook) h) = 1%nat /\
    (fst (result (flush store hook) h) = None ->
     List.length (issued (flush store hook) h) = (List.length (entries hook) + 4)%nat /\
     inserts (issued (flush store hook) h) = List.length (entries hook)).
Proof.
  intros store hook h.
  flush_cases store hook h; rewrite Hr, Ht; unfold flushed, inserts, flushes;
    cbn [List.length filter fst ok is_exec is_begin];
    rewrite ?filter_app, ?filter_execs_exec, ?filter_execs_begin, ?length_app,
      ?length_execs, ?Hes, ?length_app;
    cbn [List.length filter fst ok is_exec is_begin app];
    repeat split; try lia; try discriminate.
Qed.

(** ** Appends that do not reach the store *)

(** While the buffer stays below the batch size, appends are local: no
    call is made on the store, whatever state it is in, no [Fire] returns
    an error, and the buffer is the old buffer followed by the appended
    records. *)
Theorem appends_below_the_threshold_stay_local :
  forall store es hook h,
    len (entries hook) + len es < batchSize hook ->
    Fire_all store hook es h
    = ((repeat None (List.length es), set_entries hook (entries hook ++ es)), h).
Proof.
  intros store. induction es as [|entry rest IH]; intros hook h L.
  - simpl. rewrite app_nil_r. destruct hook; reflexivity.
  - assert (L1 : len (entries hook) + 1 < batchSize hook).
    { unfold len in *. simpl List.length in L. lia. }
    rewrite Fire_all_cons. unfold result. rewrite (Fire_below store hook entry h L1).
    cbn [fst snd]. rewrite IH.
    + cbn [fst snd repeat List.length]. unfold appended, set_entries. cbn [entries db batchSize].
      now rewrite <- app_assoc.
    + cbn [appended set_entries entries batchSize]. rewrite len_app.
      unfold len in *. simpl List.length in *. lia.
Qed.

Lemma four_appends_below_five :
  Fire_all refuses_begin (fresh 5) (map record [0; 1; 2; 3]) []
  = ((repeat None 4, set_entries (fresh 5) (map record [0; 1; 2; 3])), []).
Proof.
  apply (appends_below_the_threshold_stay_local refuses_begin
           (map record [0; 1; 2; 3]) (fresh 5) []).
  reflexivity.
Defined.

(** ** A store that refuses every transaction *)

Lemma flush_begin_refused store hook h err :
  store h DbBegin = Some err ->
  flush store hook h = ((Some err, hook), h ++ [(DbBegin, Some err)]).
Proof. intros E. unfold flush, bind, call. cbv zeta. now rewrite E. Qed.

Lemma receive_refused t :
  Forall (fun ev : Call * option error => exists err, ev = (DbBegin, Some err)) t ->
  forall s, fold_left receive t s = s.
Proof.
  induction 1 as [|ev t (err & ->) _ IH]; intros s; [reflexivity |].
  simpl. apply IH.
Qed.

Lemma inserts_refused t :
  Forall (fun ev : Call * option error => exists err, ev = (DbBegin, Some err)) t ->
  inserts t = 0%nat.
Proof.
  unfold inserts. induction 1 as [|ev t (err & ->) _ IH]; [reflexivity |].
  simpl. exact IH.
Qed.

(** While the store refuses every [Begin], nothing is inserted or
    committed, the only calls made are the refused [Begin]s, and the buffer
    keeps every record: it grows by one with every append, without
    bound. *)
Theorem buffer_keeps_everything_while_begin_is_refused :
  forall store es hook h,
    (forall h', store h' DbBegin <> None) ->
    entries (snd (result (Fire_all store hook es) h)) = entries hook ++ es /\
    Forall (fun ev => exists err, ev = (DbBegin, Some err))
           (issued (Fire_all store hook es) h) /\
    inserts (issued (Fire_all store hook es) h) = 0%nat /\
    batches (issued (Fire_all store hook es) h) = [].
Proof.
  intros store es hook h R.
  assert (Main : forall es hook h,
             entries (snd (result (Fire_all store hook es) h)) = entries hook ++ es /\
             Forall (fun ev => exists err, ev = (DbBegin, Some err))
                    (issued (Fire_all store hook es) h)).
  { clear es hook h. induction es as [|entry rest IH]; intros hook h.
    - unfold issued, result. simpl. rewrite skipn_all, app_nil_r. auto.
    - rewrite Fire_all_result_cons, Fire_all_issued_cons. cbn [fst snd].
      assert (F : entries (snd (result (Fire store hook entry) h)) = entries hook ++ [entry] /\
                  Forall (fun ev => exists err, ev = (DbBegin, Some err))
                         (issued (Fire store hook entry) h)).
      { destruct (Z_lt_le_dec (len (entries hook) + 1) (batchSize hook)) as [L | L].
        - unfold issued, result. rewrite (Fire_below store hook entry h L). simpl.
          rewrite skipn_all. auto.
        - unfold issued, result. rewrite (Fire_flush store hook entry h L).
          destruct (store h DbBegin) as [err|] eqn:E; [| destruct (R h E)].
          rewrite (flush_begin_refused store _ h err E). cbn [fst snd].
          rewrite skipn_app, skipn_all, Nat.sub_diag. simpl.
          split; [reflexivity |]. constructor; [now exists err | constructor]. }
      destruct F as [F1 F2].
      destruct (IH (snd (result (Fire store hook entry) h)) (snd (Fire store hook entry h)))
        as [I1 I2].
      rewrite I1, F1, <- app_assoc. split; [reflexivity |].
      apply Forall_app. auto. }
  destruct (Main es hook h) as [M1 M2].
  split; [exact M1 |]. split; [exact M2 |].
  split; [now apply inserts_refused |].
  unfold batches. now rewrite (receive_refused _ M2).
Qed.

Lemma buffer_while_begin_is_refused_example :
  entries (snd (result (Fire_all refuses_begin (fresh 2) (map record [0; 1; 2; 3; 4])) []))
  = map record [0; 1; 2; 3; 4] /\
  List.length (issued (Fire_all refuses_begin (fresh 2) (map record [0; 1; 2; 3; 4])) [])
  = 4%nat.
Proof.
  destruct (buffer_keeps_everything_while_begin_is_refused refuses_begin
              (map record [0; 1; 2; 3; 4]) (fresh 2) [])
    as (H1 & _).
  - intros h'. discriminate.
  - split; [exact H1 | reflexivity].
Defined.

(** ** What of an entry reaches the store *)

Lemma exec_entries_without_data store es :
  forall h, exec_entries store (map without_data es) h = exec_entries store es h.
Proof.
  induction es as [|entry rest IH]; intros h; [reflexivity |].
  cbn [map exec_entries]. change (row (without_data entry)) with (row entry).
  unfold bind. destruct (call store (StmtExec (row entry)) h) as [[err|] h1];
    [reflexivity | apply IH].
Qed.

Lemma flush_without_data store hook h :
  flush store (erase hook) h
  = ((fst (result (flush store hook) h), erase (snd (result (flush store hook) h))),
     snd (flush store hook h)).
Proof.
  unfold result, flush, bind.
  destruct (call store DbBegin h) as [[err|] h1]; [reflexivity |].
  destruct (call store (TxPrepare insertQuery) h1) as [[err|] h2]; [reflexivity |].
  unfold flush_prepared, bind.
  change (entries (erase hook)) with (map without_data (entries hook)).
  rewrite exec_entries_without_data.
  destruct (exec_entries store (entries hook) h2) as [[err|] h3].
  - unfold ret. cbv beta iota. destruct (call store StmtClose h3). reflexivity.
  - destruct (call store TxCommit h3) as [[err|] h4]; unfold ret; cbv beta iota;
      destruct (call store StmtClose h4); reflexivity.
Qed.

Lemma appended_without_data hook entry :
  appended (erase hook) (without_data entry) = erase (appended hook entry).
Proof.
  unfold appended, erase, set_entries. cbn [entries db batchSize].
  now rewrite map_app.
Qed.

Lemma Fire_without_data store hook entry h :
  Fire store (erase hook) (without_data entry) h
  = ((fst (result (Fire store hook entry) h), erase (snd (result (Fire store hook entry) h))),
     snd (Fire store hook entry h)).
Proof.
  assert (Ln : len (entries (erase hook)) = len (entries hook)).
  { unfold erase. cbn [set_entries entries]. apply len_map. }
  destruct (Z_lt_le_dec (len (entries hook) + 1) (batchSize hook)) as [L | L].
  - unfold result. rewrite (Fire_below store hook entry h L).
    rewrite Fire_below by (rewrite Ln; exact L).
    cbn [fst snd]. now rewrite appended_without_data.
  - unfold result. rewrite (Fire_flush store hook entry h L).
    rewrite Fire_flush by (rewrite Ln; exact L).
    rewrite appended_without_data. apply flush_without_data.
Qed.

Lemma Fire_all_without_data store es :
  forall hook h,
    Fire_all store (erase hook) (map without_data es) h
    = ((fst (result (Fire_all store hook es) h),
        erase (snd (result (Fire_all store hook es) h))),
       snd (Fire_all store hook es h)).
Proof.
  induction es as [|entry rest IH]; intros hook h; [reflexivity |].
  cbn [map]. unfold result. rewrite !Fire_all_cons. unfold result.
  rewrite Fire_without_data. cbn [fst snd]. unfold result. rewrite IH.
  reflexivity.
Qed.

(** The structured fields of an entry never reach the store.  Two runs of
    appends over records that agree on time, level and message, from hooks
    whose buffers agree in the same way, make the same calls, get the same
    answers and return the same errors, whatever the fields attached with
    [WithFields]. *)
Theorem structured_fields_are_never_sent :
  forall store hook hook' es es' h,
    erase hook = erase hook' ->
    map without_data es = map without_data es' ->
    snd (Fire_all store hook es h) = snd (Fire_all store hook' es' h) /\
    fst (result (Fire_all store hook es) h) = fst (result (Fire_all store hook' es') h) /\
    erase (snd (result (Fire_all store hook es) h))
    = erase (snd (result (Fire_all store hook' es') h)).
Proof.
  intros store hook hook' es es' h Hh He.
  pose proof (Fire_all_without_data store es hook h) as A.
  pose proof (Fire_all_without_data store es' hook' h) as B.
  rewrite Hh, He, B in A.
  pose proof (f_equal snd A) as A1.
  pose proof (f_equal (fun x => fst (fst x)) A) as A2.
  pose proof (f_equal (fun x => snd (fst x)) A) as A3.
  cbn [fst snd] in A1, A2, A3. auto.
Qed.

Lemma structured_fields_example :
  snd (Fire_all accepts_everything (fresh 1) [info_entry demo_clock 7] [])
  = snd (Fire_all accepts_everything (fresh 1)
           [{| Time := 1700000007; Level := logrus.InfoLevel;
               Message := "This is an info log entry";
               Data := [("request", 42)] |}] []).
Proof.
  apply (structured_fields_are_never_sent accepts_everything (fresh 1) (fresh 1)
           [info_entry demo_clock 7]
           [{| Time := 1700000007; Level := logrus.InfoLevel;
               Message := "This is an info log entry";
               Data := [("request", 42)] |}] []);
    reflexivity.
Defined.

(** ** Levels *)


(** ** The insert and the table *)

(** The statement [flush] prepares is the insert that names every column
    of the table declared in [create.sql], in the order of the
    declaration, and every row handed to it has one argument per column,
    of the type of that column: a time for [event_time], text for [level]
    and for [message]. *)
Theorem insert_matches_the_table :
  forall entry,
    insertQuery = insert_statement tiered_logs /\
    Forall2 fits (row entry) (map snd (columns tiered_logs)).
Proof.
  intros entry. split; [reflexivity |].
  repeat constructor.
Qed.
